(** * Transit fare system: routing and fare engine of [src/main.py]

    A shallow embedding of the routing-and-fare core of the program:
    the fare-table lookup, the transfer-window fare engine, the mode
    inference over a path and the shortest-path finder, followed by the
    properties the specification states about them; then the rest of
    the program that is free of input and output: the lines and
    transfers of a path, the zones it crosses, the loading of the
    network from the rows of its files, the lines that serve a station
    and the reading of a time of the day, with properties of each and
    of their composition in the trip loop.

    Conventions of the embedding.
    - Python [int] is [Z] (unbounded), [float] is the binary64 type
      [float] of [PrimFloat], [str] is [string] (a string is its UTF-8
      bytes; comparing those byte-wise is Python's code-point order).
    - A [dict] is a [gmap], a [set] is a [gset].
    - A call that may raise or run forever returns an [outcome]. *)

From Stdlib Require Import ZArith Floats Ascii.
From stdpp Require Import gmap strings list fin_maps sorting.

Local Open Scope Z_scope.
Set Warnings "-inexact-float".

(** ** Outcomes of a call *)

Inductive exn : Type :=
  | KeyError
  | ValueError.

Inductive outcome (A : Type) : Type :=
  | Returns (a : A)
  | Raises (e : exn)
  | Diverges.

Arguments Returns {A} a.
Arguments Raises {A} e.
Arguments Diverges {A}.

#[global] Instance outcome_ret : MRet outcome := fun A a => Returns a.

#[global] Instance outcome_bind : MBind outcome := fun A B k m =>
  match m with
  | Returns a => k a
  | Raises e => Raises e
  | Diverges => Diverges
  end.

(** ** Models *)

Record Edge : Type := mkEdge {
  to_id : string;
  minutes : Z;
  line : string;
  mode : string
}.

Record FareSession : Type := mkFareSession {
  start_minute : Z;
  paid_zones : Z
}.

(** ** Zone fare logic *)

Module Fare.

(** [max(zone_fares)]: the greatest key of the table, [ValueError] on an
    empty one. *)
Definition max_key (zone_fares : gmap Z float) : outcome Z :=
  match (map_to_list zone_fares).*1 with
  | [] => Raises ValueError
  | k :: ks => Returns (foldr Z.max k ks)
  end.

(** [d[k]]: subscription raises [KeyError] on a missing key. *)
Definition subscript (zone_fares : gmap Z float) (k : Z) : outcome float :=
  match zone_fares !! k with
  | Some f => Returns f
  | None => Raises KeyError
  end.

(** [zone_fares.get(required_zones, zone_fares[max(zone_fares)])]: Python
    evaluates the default before the call, whether it is used or not. *)
Definition fare_for_zones (required_zones : Z) (zone_fares : gmap Z float)
  : outcome float :=
  m ← max_key zone_fares ;
  fallback ← subscript zone_fares m;
  Returns (default fallback (zone_fares !! required_zones)).

(** [max(a, b)] on floats: [b] when [b > a], otherwise [a]. *)
Definition float_max (a b : float) : float :=
  if PrimFloat.ltb a b then b else a.

Definition compute_fare_with_transfer_window
    (session : option FareSession) (trip_time_minute required_zones : Z)
    (zone_fares : gmap Z float) (window_minutes : Z)
  : outcome (float * FareSession) :=
  trip_cost ← fare_for_zones required_zones zone_fares;
  let new_session :=
    Returns (trip_cost, mkFareSession trip_time_minute required_zones) in
  match session with
  | None => new_session
  | Some s =>
      if trip_time_minute - start_minute s >? window_minutes then new_session
      else
        already_paid_cost ← fare_for_zones (paid_zones s) zone_fares;
        if required_zones <=? paid_zones s then Returns (0%float, s)
        else
          Returns (float_max 0%float (PrimFloat.sub trip_cost already_paid_cost),
                   mkFareSession (start_minute s) required_zones)
  end.

(** The table of the concrete scenarios. *)
Definition scenario_fares : gmap Z float :=
  <[1 := 2.5%float]> (<[2 := 3.75%float]> (<[3 := 4.9%float]> ∅)).

End Fare.

(** ** Path analysis *)

Module PathAnalyzer.

(** The loop of [edge_info] over [graph[a]]: the first edge that leads to
    [b]; [ValueError] when the list has none. *)
Fixpoint first_edge_to (b : string) (edges : list Edge) : outcome Edge :=
  match edges with
  | [] => Raises ValueError
  | e :: rest => if decide (to_id e = b) then Returns e else first_edge_to b rest
  end.

Definition edge_info (graph : gmap string (list Edge)) (a b : string)
  : outcome Edge :=
  match graph !! a with
  | None => Raises KeyError
  | Some edges => first_edge_to b edges
  end.

(** [zip(path, path[1:])]. *)
Definition segments (path : list string) : list (string * string) :=
  zip path (tail path).

(** The edge of every segment, in path order, as the analyzer looks them
    up one after the other. *)
Fixpoint segment_edges (graph : gmap string (list Edge))
    (pairs : list (string * string)) : outcome (list Edge) :=
  match pairs with
  | [] => Returns []
  | (a, b) :: rest =>
      e ← edge_info graph a b;
      es ← segment_edges graph rest;
      Returns (e :: es)
  end.

Section Upper.

(** [str.upper] of Python, a parameter of the development: the
    properties below hold whatever it does to a label. *)
Variable upper : string → string.

Definition train_like (e : Edge) : Prop := upper (mode e) = "TRAIN"%string.

(** The [for] loop of [infer_mode_for_path] with its flag [saw_train]. *)
Fixpoint scan_modes (graph : gmap string (list Edge))
    (pairs : list (string * string)) (saw_train : bool) : outcome bool :=
  match pairs with
  | [] => Returns saw_train
  | (a, b) :: rest =>
      e ← edge_info graph a b;
      scan_modes graph rest
        (if decide (upper (mode e) = "TRAIN"%string) then true else saw_train)
  end.

Definition infer_mode_for_path (graph : gmap string (list Edge))
    (path : list string) : outcome string :=
  if (length path <? 2)%nat then Returns "TRAIN"%string
  else
    saw_train ← scan_modes graph (segments path) false;
    Returns (if saw_train : bool then "TRAIN"%string else "BUS"%string).

Definition trip_required_zones (mode : string) (zones_crossed : Z) : Z :=
  if decide (upper mode = "BUS"%string) then 1 else zones_crossed.

Definition compute_fare (zones : Z) (mode : string)
    (zone_fares : gmap Z float) (bus_flat_fare : float) : outcome float :=
  if decide (upper mode = "BUS"%string) then Returns bus_flat_fare
  else Fare.fare_for_zones zones zone_fares.

End Upper.

#[global] Instance train_like_dec (upper : string → string) (e : Edge)
  : Decision (train_like upper e).
Proof. unfold train_like. apply _. Defined.

(** [str.upper] on labels written in ASCII, to run the definitions. *)
Definition ascii_upper_char (c : Ascii.ascii) : Ascii.ascii :=
  let n := Ascii.N_of_ascii c in
  if ((97 <=? n) && (n <=? 122))%N then Ascii.ascii_of_N (n - 32) else c.

Fixpoint ascii_upper (s : string) : string :=
  match s with
  | EmptyString => EmptyString
  | String c rest => String (ascii_upper_char c) (ascii_upper rest)
  end.

End PathAnalyzer.

(** ** Routing (Dijkstra: shortest time) *)

Module Routing.

(** An entry [(distance, station)] of the priority queue. *)
Definition item : Type := Z * string.

(** Python's order on the tuples: by distance, then by station id. *)
Definition item_ltb (x y : item) : bool :=
  (x.1 <? y.1) || ((x.1 =? y.1) && String.ltb x.2 y.2).

(** The queue is kept as the bag of its entries. [heapq] stores them in
    an array with the heap shape, but all that [heappop] lets a caller
    see is that it removes and returns the least entry; entries that
    compare equal are the same tuple. The entry popped below is the
    least of the bag (lemma [least_lower_bound]) and does not depend on
    the order of the list (lemma [heappop_perm]). *)
Definition heappush (pq : list item) (x : item) : list item := x :: pq.

Fixpoint least (x : item) (l : list item) : item :=
  match l with
  | [] => x
  | y :: rest => least (if item_ltb y x then y else x) rest
  end.

Fixpoint remove_one (x : item) (l : list item) : list item :=
  match l with
  | [] => []
  | y :: rest => if decide (y = x) then rest else y :: remove_one x rest
  end.

(** [None] on the empty queue, where the [while pq] loop stops. *)
Definition heappop (pq : list item) : option (item * list item) :=
  match pq with
  | [] => None
  | x :: rest => let m := least x rest in Some (m, remove_one m pq)
  end.

(** The variables of [dijkstra_path]. *)
Record state : Type := mkState {
  dist : gmap string Z;
  prev : gmap string (option string);
  pq : list item;
  visited : gset string
}.

(** One turn of the [for e in graph[cur]] loop. *)
Definition relax (cur : string) (cur_dist : Z)
    (acc : gmap string Z * gmap string (option string) * list item) (e : Edge)
  : gmap string Z * gmap string (option string) * list item :=
  let '(dist, prev, pq) := acc in
  let nd := cur_dist + minutes e in
  let better :=
    match dist !! to_id e with
    | None => true
    | Some d => nd <? d
    end in
  if better
  then (<[to_id e := nd]> dist, <[to_id e := Some cur]> prev,
        heappush pq (nd, to_id e))
  else acc.

(** The [while pq] loop. Every turn pops one entry, and entries are only
    pushed while a station is visited for the first time, so the loop
    takes at most [loop_fuel graph] turns (lemma [dijkstra_loop_fuel]);
    [fuel] makes the recursion structural. *)
Fixpoint dijkstra_loop (fuel : nat) (graph : gmap string (list Edge))
    (goal_id : string) (st : state) : outcome state :=
  match fuel with
  | O => Diverges
  | S fuel' =>
      match heappop (pq st) with
      | None => Returns st
      | Some ((cur_dist, cur), pq') =>
          if decide (cur ∈ visited st)
          then dijkstra_loop fuel' graph goal_id
                 (mkState (dist st) (prev st) pq' (visited st))
          else
            let visited' := {[cur]} ∪ visited st in
            if decide (cur = goal_id)
            then Returns (mkState (dist st) (prev st) pq' visited')
            else
              match graph !! cur with
              | None => Raises KeyError
              | Some edges =>
                  let '(dist', prev', pq'') :=
                    foldl (relax cur cur_dist) (dist st, prev st, pq') edges in
                  dijkstra_loop fuel' graph goal_id
                    (mkState dist' prev' pq'' visited')
              end
      end
  end.

Definition edge_count (graph : gmap string (list Edge)) : nat :=
  sum_list (length <$> (map_to_list graph).*2).

Definition loop_fuel (graph : gmap string (list Edge)) : nat :=
  S (S (edge_count graph)).

(** [prev.get(cur)]: [None] for a station without an entry as for one
    whose entry is [None]. *)
Definition prev_get (prev : gmap string (option string)) (cur : string)
  : option string :=
  default None (prev !! cur).

(** The [while cur is not None] loop that walks [prev] back from the
    goal. A walk longer than the number of entries of [prev] passes a
    station twice and then never ends: with [fuel] one more than that
    number, [Diverges] is returned on exactly those (lemma
    [walk_back_diverges]). *)
Fixpoint walk_back (fuel : nat) (prev : gmap string (option string))
    (cur : option string) (path : list string) : outcome (list string) :=
  match cur with
  | None => Returns path
  | Some c =>
      match fuel with
      | O => Diverges
      | S fuel' => walk_back fuel' prev (prev_get prev c) (path ++ [c])
      end
  end.

(** The station reached after [k] steps back, if the walk gets there. *)
Definition nth_back (prev : gmap string (option string)) (k : nat)
    (cur : option string) : option string :=
  Nat.iter k (λ o, o ≫= prev_get prev) cur.

Definition init (start_id : string) : state :=
  mkState {[start_id := 0]} {[start_id := None]} [(0, start_id)] ∅.

Definition dijkstra_path (graph : gmap string (list Edge))
    (start_id goal_id : string) : outcome (option (list string * Z)) :=
  match graph !! start_id, graph !! goal_id with
  | Some _, Some _ =>
      st ← dijkstra_loop (loop_fuel graph) graph goal_id (init start_id);
      match dist st !! goal_id with
      | None => Returns None
      | Some total =>
          path ← walk_back (S (size (prev st))) (prev st) (Some goal_id) [];
          Returns (Some (reverse path, total))
      end
  | _, _ => Returns None
  end.

(** A route through the network: the stations passed, in order, and the
    minutes of the connections taken, added up. *)
Inductive route (graph : gmap string (list Edge))
  : string → list string → Z → string → Prop :=
  | route_here (u : string) : route graph u [u] 0 u
  | route_step (u : string) (edges : list Edge) (e : Edge)
      (path : list string) (total : Z) (v : string) :
      graph !! u = Some edges → e ∈ edges →
      route graph (to_id e) path total v →
      route graph u (u :: path) (minutes e + total) v.

(** The minutes of a path as the analyzer reads its segments: those of
    the connection that [edge_info] finds for each of them. *)
Definition path_minutes (graph : gmap string (list Edge)) (path : list string)
  : outcome Z :=
  es ← PathAnalyzer.segment_edges graph (PathAnalyzer.segments path);
  Returns (foldr (λ (e : Edge) total, minutes e + total) 0 es).

(** Two stations are joined by one connection at most. *)
Definition single_connection (graph : gmap string (list Edge)) : Prop :=
  ∀ u edges, graph !! u = Some edges → NoDup (to_id <$> edges).

(** The invariants of a network in the data model: every connection
    leads to a station of the network, and no travel time is negative. *)
Definition closed (graph : gmap string (list Edge)) : Prop :=
  ∀ u edges e, graph !! u = Some edges → e ∈ edges → is_Some (graph !! to_id e).

Definition nonneg (graph : gmap string (list Edge)) : Prop :=
  ∀ u edges e, graph !! u = Some edges → e ∈ edges → 0 ≤ minutes e.

Definition reachable (graph : gmap string (list Edge)) (start_id v : string)
  : Prop :=
  ∃ path total, route graph start_id path total v.

(** *** What the loop maintains *)

(** Edges of the stations not visited yet: what may still be pushed. *)
Definition pending (graph : gmap string (list Edge)) (seen : gset string) : nat :=
  sum_list ((λ kv : string * list Edge,
               if decide (kv.1 ∈ seen) then O else length kv.2)
            <$> map_to_list graph).

Definition measure (graph : gmap string (list Edge)) (st : state) : nat :=
  (length (pq st) + pending graph (visited st))%nat.

(** Stations with a distance are stations of the network that a route
    reaches, and the queue holds only stations with a distance. *)
Definition known (graph : gmap string (list Edge)) (start_id : string)
    (dist : gmap string Z) (pq : list item) : Prop :=
  (∀ v d, dist !! v = Some d →
     is_Some (graph !! v) ∧ reachable graph start_id v) ∧
  (∀ d x, (d, x) ∈ pq → is_Some (dist !! x)).

(** The path from the start to [v] that [prev] records, with the minutes
    of the connections it was recorded along. *)
Inductive back (graph : gmap string (list Edge)) (start_id : string)
    (prev : gmap string (option string)) : string → list string → Z → Prop :=
  | back_start : back graph start_id prev start_id [start_id] 0
  | back_step (v u : string) (path : list string) (total : Z)
      (edges : list Edge) (e : Edge) :
      v ≠ start_id → prev !! v = Some (Some u) →
      back graph start_id prev u path total →
      graph !! u = Some edges → e ∈ edges → to_id e = v →
      back graph start_id prev v (path ++ [v]) (total + minutes e).

(** The invariant of the search, for the set [seen] of visited stations. *)
Record inv (graph : gmap string (list Edge)) (start_id : string)
    (seen : gset string) (dist : gmap string Z)
    (prev : gmap string (option string)) (pq : list item) : Prop := mkInv {
  inv_start : dist !! start_id = Some 0 ∧ prev !! start_id = Some None;
  inv_queue : ∀ d x, (d, x) ∈ pq → 0 ≤ d ∧ ∃ dx, dist !! x = Some dx ∧ dx ≤ d;
  inv_pending : ∀ v d, dist !! v = Some d → v ∉ seen → (d, v) ∈ pq;
  inv_settled : ∀ x dx d y,
    x ∈ seen → dist !! x = Some dx → (d, y) ∈ pq → dx ≤ d;
  inv_back : ∀ x, x ∈ seen →
    ∃ path dx, dist !! x = Some dx ∧ back graph start_id prev x path dx ∧
               Forall (.∈ seen) path;
  inv_prev : ∀ v d, dist !! v = Some d → v ∉ seen → v ≠ start_id →
    ∃ u du edges e, prev !! v = Some (Some u) ∧ u ∈ seen ∧
      dist !! u = Some du ∧ graph !! u = Some edges ∧ e ∈ edges ∧
      to_id e = v ∧ d = du + minutes e
}.

(** Every connection out of a station of [done] has been relaxed. *)
Definition relaxed (graph : gmap string (list Edge)) (done : gset string)
    (dist : gmap string Z) : Prop :=
  ∀ x dx edges e, x ∈ done → dist !! x = Some dx →
    graph !! x = Some edges → e ∈ edges →
    ∃ dy, dist !! to_id e = Some dy ∧ dy ≤ dx + minutes e.

(** The invariant while the connections of [cur] are relaxed: [cur] is
    visited with distance [cur_dist], the largest of a visited station. *)
Definition relaxing (graph : gmap string (list Edge)) (start_id : string)
    (seen done : gset string) (cur : string) (cur_dist : Z)
    (acc : gmap string Z * gmap string (option string) * list item) : Prop :=
  inv graph start_id seen acc.1.1 acc.1.2 acc.2 ∧
  relaxed graph done acc.1.1 ∧
  acc.1.1 !! cur = Some cur_dist ∧
  (∀ x dx, x ∈ seen → acc.1.1 !! x = Some dx → dx ≤ cur_dist).

(** At the head of the loop, and at its end. *)
Definition loop_inv (graph : gmap string (list Edge))
    (start_id goal_id : string) (st : state) : Prop :=
  inv graph start_id (visited st) (dist st) (prev st) (pq st) ∧
  relaxed graph (visited st) (dist st) ∧
  goal_id ∉ visited st.

Definition post (graph : gmap string (list Edge))
    (start_id goal_id : string) (st : state) : Prop :=
  prev st !! start_id = Some None ∧
  (∀ d, dist st !! goal_id = Some d →
     (∃ path, back graph start_id (prev st) goal_id path d) ∧
     (∀ path total, route graph start_id path total goal_id → d ≤ total)) ∧
  (dist st !! goal_id = None → ¬ reachable graph start_id goal_id).

(** A small network to run the definitions on. *)
Definition demo_graph : gmap string (list Edge) :=
  let E := mkEdge in
  list_to_map
    [ ("A", [E "B" 4 "Expo" "train"; E "C" 1 "R5" "bus"]);
      ("B", [E "A" 4 "Expo" "train"; E "C" 2 "R5" "Bus"; E "D" 5 "Expo" "Train"]);
      ("C", [E "A" 1 "R5" "bus"; E "B" 2 "R5" "Bus"]);
      ("D", [E "B" 5 "Expo" "Train"]);
      ("Z", []) ]%string.

(** A network with two connections between the same stations. *)
Definition parallel_graph : gmap string (list Edge) :=
  list_to_map
    [ ("A", [mkEdge "B" 10 "R5" "bus"; mkEdge "B" 5 "Expo" "train"]);
      ("B", [mkEdge "A" 10 "R5" "bus"; mkEdge "A" 5 "Expo" "train"]) ]%string.

End Routing.


(** ** Lines and transfers along a path *)

Module Lines.
Import PathAnalyzer.

(** The [for] loop of [segment_lines] with its list [lines]. *)
Fixpoint segment_lines_loop (graph : gmap string (list Edge))
    (pairs : list (string * string)) (lines : list string)
  : outcome (list string) :=
  match pairs with
  | [] => Returns lines
  | (a, b) :: rest =>
      e ← edge_info graph a b;
      segment_lines_loop graph rest (lines ++ [line e])
  end.

Definition segment_lines (graph : gmap string (list Edge)) (path : list string)
  : outcome (list string) :=
  segment_lines_loop graph (segments path) [].

(** One turn of the loop of [unique_lines_in_order]: [ln] is appended
    unless it is [out[-1]]. [out] starts with one element and only
    grows, so [out[-1]] never fails. *)
Definition unique_step (out : list string) (ln : string) : list string :=
  if decide (last out = Some ln) then out else out ++ [ln].

Definition unique_lines_in_order (lines : list string) : list string :=
  match lines with
  | [] => []
  | first :: rest => foldl unique_step [first] rest
  end.

(** One turn of the loop of [transfer_stations], for the index [i];
    [None] stands for the [IndexError] of [path[i]], which ends the
    loop. [lines[i]] and [lines[i - 1]] are within the list for every
    [i] of [range(1, len(lines))]. *)
Definition transfer_step (path lines : list string)
    (transfers : option (list string)) (i : nat) : option (list string) :=
  ts ← transfers;
  if decide (lines !! i ≠ lines !! (i - 1)%nat)
  then s ← path !! i; Some (ts ++ [s])
  else Some ts.

Definition transfer_stations (path lines : list string)
  : option (list string) :=
  foldl (transfer_step path lines) (Some []) (seq 1 (length lines - 1)).

(** Neighbours in the list differ. *)
Definition no_repeat (l : list string) : Prop :=
  ∀ i x y, l !! i = Some x → l !! S i = Some y → x ≠ y.

End Lines.

(** ** Zones along a path *)

Record Station : Type := mkStation {
  id : string;
  name : string;
  zone : Z
}.

Module Zones.

(** [[stations[sid].zone for sid in path]]: [KeyError] at the first
    station that is not in [stations]. *)
Fixpoint zones_of (stations : gmap string Station) (path : list string)
  : outcome (list Z) :=
  match path with
  | [] => Returns []
  | sid :: rest =>
      match stations !! sid with
      | None => Raises KeyError
      | Some st => zs ← zones_of stations rest; Returns (zone st :: zs)
      end
  end.

(** [max] and [min] of a list: [ValueError] on the empty one. *)
Definition list_max (zs : list Z) : outcome Z :=
  match zs with
  | [] => Raises ValueError
  | z :: rest => Returns (foldl Z.max z rest)
  end.

Definition list_min (zs : list Z) : outcome Z :=
  match zs with
  | [] => Raises ValueError
  | z :: rest => Returns (foldl Z.min z rest)
  end.

Definition zones_crossed (stations : gmap string Station) (path : list string)
  : outcome Z :=
  zones ← zones_of stations path;
  hi ← list_max zones;
  lo ← list_min zones;
  Returns (hi - lo + 1).

(** The stations of the demo network, in two zones. *)
Definition demo_stations : gmap string Station :=
  list_to_map
    [ ("A", mkStation "A" "Waterfront" 1);
      ("B", mkStation "B" "Burrard" 1);
      ("C", mkStation "C" "Commercial" 2);
      ("D", mkStation "D" "Lougheed" 3);
      ("Z", mkStation "Z" "Depot" 2) ]%string.

End Zones.

(** ** Loading the network *)

Module Loader.

(** A row of [edges.json] with its fields read: ["from"], ["to"],
    [int(row["minutes"])], ["line"] and ["mode"]. A row of
    [stations.json] with its fields read is a [Station]. *)
Record EdgeRow : Type := mkEdgeRow {
  row_from : string;
  row_to : string;
  row_minutes : Z;
  row_line : string;
  row_mode : string
}.

(** The dict comprehension over the station rows: a later row with the
    same id replaces an earlier one. *)
Definition load_stations (station_rows : list Station) : gmap string Station :=
  foldl (λ stations row, <[id row := row]> stations) ∅ station_rows.

(** [{sid: [] for sid in stations}]. *)
Definition empty_graph (stations : gmap string Station)
  : gmap string (list Edge) :=
  (λ _, []) <$> stations.

(** [link]: both lists exist when it is called, after the check of the
    two ids. *)
Definition link (graph : gmap string (list Edge)) (a b : string)
    (minutes : Z) (line mode : string) : gmap string (list Edge) :=
  let graph := alter (λ edges, edges ++ [mkEdge b minutes line mode]) a graph in
  alter (λ edges, edges ++ [mkEdge a minutes line mode]) b graph.

(** The loop over the edge rows: [ValueError] at the first row that
    names a station which is not in [stations]. *)
Fixpoint load_edges (stations : gmap string Station)
    (graph : gmap string (list Edge)) (edge_rows : list EdgeRow)
  : outcome (gmap string (list Edge)) :=
  match edge_rows with
  | [] => Returns graph
  | row :: rest =>
      match stations !! row_from row, stations !! row_to row with
      | Some _, Some _ =>
          load_edges stations
            (link graph (row_from row) (row_to row) (row_minutes row)
               (row_line row) (row_mode row))
            rest
      | _, _ => Raises ValueError
      end
  end.

(** The stations and the graph of [load_network], from the rows of the
    two files. *)
Definition build_network (station_rows : list Station)
    (edge_rows : list EdgeRow)
  : outcome (gmap string Station * gmap string (list Edge)) :=
  let stations := load_stations station_rows in
  graph ← load_edges stations (empty_graph stations) edge_rows;
  Returns (stations, graph).

(** Every connection has its twin in the other direction. *)
Definition symmetric (graph : gmap string (list Edge)) : Prop :=
  ∀ u edges e, graph !! u = Some edges → e ∈ edges →
    ∃ edges', graph !! to_id e = Some edges' ∧
      mkEdge u (minutes e) (line e) (mode e) ∈ edges'.

(** The connections that a row stands for. *)
Definition row_edge (row : EdgeRow) : Edge :=
  mkEdge (row_to row) (row_minutes row) (row_line row) (row_mode row).

Definition row_edge_back (row : EdgeRow) : Edge :=
  mkEdge (row_from row) (row_minutes row) (row_line row) (row_mode row).

(** The connections that the rows give to the station [u], in the order
    of the rows. *)
Fixpoint edges_of (edge_rows : list EdgeRow) (u : string) : list Edge :=
  match edge_rows with
  | [] => []
  | row :: rest =>
      (if decide (u = row_from row) then [row_edge row] else []) ++
      (if decide (u = row_to row) then [row_edge_back row] else []) ++
      edges_of rest u
  end.

(** Both ends of the row are stations. *)
Definition known_row (stations : gmap string Station) (row : EdgeRow) : Prop :=
  is_Some (stations !! row_from row) ∧ is_Some (stations !! row_to row).

(** The rows of the demo network. *)
Definition demo_station_rows : list Station :=
  [ mkStation "A" "Waterfront" 1; mkStation "B" "Burrard" 1;
    mkStation "C" "Commercial" 2; mkStation "D" "Lougheed" 3;
    mkStation "Z" "Depot" 2 ]%string.

Definition demo_edge_rows : list EdgeRow :=
  [ mkEdgeRow "A" "B" 4 "Expo" "train"; mkEdgeRow "A" "C" 1 "R5" "bus";
    mkEdgeRow "B" "C" 2 "R5" "Bus"; mkEdgeRow "B" "D" 5 "Expo" "Train" ]%string.

End Loader.

(** ** Lines that serve a station *)

Module StationLines.

(** The inner loop of [station_lines]: the line of every connection of
    the list is added to the set. *)
Definition add_lines (edges : list Edge) (s : gset string) : gset string :=
  foldl (λ s e, s ∪ {[line e]}) s edges.

(** [sorted(list(s))] on a set of strings. *)
Definition sorted (s : gset string) : list string :=
  merge_sort String.le (elements s).

(** Every station of [graph] starts with the empty set, gets the lines
    of its own list in its turn of the outer loop, and ends with the
    sorted list of its set. *)
Definition station_lines (graph : gmap string (list Edge))
  : gmap string (list string) :=
  (λ edges, sorted (add_lines edges ∅)) <$> graph.

End StationLines.

(** ** Times of the day *)

Module Clock.

(** [s.split(sep)] for a separator of one character. *)
Fixpoint split (sep : Ascii.ascii) (s : string) : list string :=
  match s with
  | EmptyString => [EmptyString]
  | String c rest =>
      if decide (c = sep) then EmptyString :: split sep rest
      else match split sep rest with
           | part :: parts => String c part :: parts
           | [] => [String c EmptyString]
           end
  end.

(** How often [sep] occurs in [s]. *)
Fixpoint count (sep : Ascii.ascii) (s : string) : nat :=
  match s with
  | EmptyString => 0
  | String c rest => (if decide (c = sep) then 1 else 0) + count sep rest
  end.

Section Conversions.

(** [str.strip] and [int] of Python on a string, parameters of the
    development: the properties below hold whatever they do. *)
Variable strip : string → string.
Variable int : string → outcome Z.

(** [parts[0]] and [parts[1]] are there once the length is 2: the last
    branch of the [match] is never taken. *)
Definition parse_hhmm_to_minute (s : string) : outcome Z :=
  let s := strip s in
  let parts := split ":"%char s in
  if decide (length parts ≠ 2%nat) then Raises ValueError
  else
    match parts with
    | part0 :: part1 :: _ =>
        hours ← int part0;
        minutes ← int part1;
        if negb ((0 <=? hours) && (hours <=? 23) &&
                 (0 <=? minutes) && (minutes <=? 59))
        then Raises ValueError
        else Returns (hours * 60 + minutes)
    | _ => Raises ValueError
    end.

End Conversions.

(** [int] on a string of ASCII digits, to run the definitions. *)
Fixpoint decimal_loop (acc : Z) (s : string) : outcome Z :=
  match s with
  | EmptyString => Returns acc
  | String c rest =>
      let n := Z.of_N (Ascii.N_of_ascii c) in
      if (48 <=? n) && (n <=? 57) then decimal_loop (acc * 10 + (n - 48)) rest
      else Raises ValueError
  end.

Definition decimal (s : string) : outcome Z :=
  match s with
  | EmptyString => Raises ValueError
  | _ => decimal_loop 0 s
  end.

End Clock.

(** * Properties *)

(** ** The fare table and the fare engine *)

Module FareFacts.
Import Fare.

Lemma foldr_max_elem (k : Z) (ks : list Z) :
  foldr Z.max k ks ∈ k :: ks ∧ ∀ j, j ∈ k :: ks → j ≤ foldr Z.max k ks.
Proof.
  induction ks as [|a ks [IHin IHle]]; simpl.
  - split; [left|]. intros j Hj. apply list_elem_of_singleton in Hj. lia.
  - split.
    + destruct (Z.max_spec a (foldr Z.max k ks)) as [[_ ->]|[_ ->]].
      * apply elem_of_cons in IHin as [->|Hin]; [left | do 2 right; done].
      * right; left.
    + intros j Hj. apply elem_of_cons in Hj as [->|Hj].
      * specialize (IHle k (list_elem_of_here _ _)). lia.
      * apply elem_of_cons in Hj as [->|Hj]; [lia|].
        specialize (IHle j (list_elem_of_further _ _ _ Hj)). lia.
Qed.

(** On a non-empty table [max] returns a key, and no key is above it. *)
Lemma max_key_spec (zone_fares : gmap Z float) :
  zone_fares ≠ ∅ →
  ∃ k, max_key zone_fares = Returns k ∧ is_Some (zone_fares !! k) ∧
       ∀ j, is_Some (zone_fares !! j) → j ≤ k.
Proof.
  intros Hne. unfold max_key.
  assert (Hkeys : ∀ j, j ∈ (map_to_list zone_fares).*1 ↔ is_Some (zone_fares !! j)).
  { intros j. rewrite list_elem_of_fmap. split.
    - intros [[j' f] [-> Hin]]. apply elem_of_map_to_list in Hin. eauto.
    - intros [f Hf]. exists (j, f). split; [done|]. by apply elem_of_map_to_list. }
  destruct ((map_to_list zone_fares).*1) as [|k ks] eqn:Hl.
  - exfalso. apply Hne. apply map_to_list_empty_iff.
    by apply fmap_nil_inv in Hl.
  - destruct (foldr_max_elem k ks) as [Hin Hle].
    exists (foldr Z.max k ks). split; [done|]. split.
    + by apply Hkeys.
    + intros j Hj. apply Hle. by apply Hkeys.
Qed.

Lemma fare_for_zones_returns (required_zones : Z) (zone_fares : gmap Z float) :
  zone_fares ≠ ∅ →
  ∃ k fk, zone_fares !! k = Some fk ∧ (∀ j, is_Some (zone_fares !! j) → j ≤ k) ∧
    fare_for_zones required_zones zone_fares =
      Returns (default fk (zone_fares !! required_zones)).
Proof.
  intros Hne. destruct (max_key_spec zone_fares Hne) as (k & Hk & [fk Hfk] & Hmax).
  exists k, fk. split; [done|]. split; [done|].
  unfold fare_for_zones, subscript. rewrite Hk. simpl. rewrite Hfk. done.
Qed.

Lemma scenario_fares_nonempty : scenario_fares ≠ ∅.
Proof. unfold scenario_fares. apply insert_non_empty. Qed.

(** C7. On a non-empty zone fare table the lookup always returns a fare
    (it raises nothing): the fare of the greatest key for a zone count
    above every key, and the key's own fare for a tabulated zone count. *)
Theorem fare_for_zones_total (zone_fares : gmap Z float) (required_zones : Z) :
  zone_fares ≠ ∅ →
  (∃ fare, fare_for_zones required_zones zone_fares = Returns fare) ∧
  (∀ k fk, zone_fares !! k = Some fk →
     (∀ j, is_Some (zone_fares !! j) → j ≤ k) →
     k < required_zones →
     fare_for_zones required_zones zone_fares = Returns fk) ∧
  (∀ fare, zone_fares !! required_zones = Some fare →
     fare_for_zones required_zones zone_fares = Returns fare).
Proof.
  intros Hne.
  destruct (fare_for_zones_returns required_zones zone_fares Hne)
    as (m & fm & Hm & Hmax & Heq).
  split; [eauto|]. split.
  - intros k fk Hk Hkmax Hlt.
    assert (m = k) as ->.
    { specialize (Hmax k (mk_is_Some _ _ Hk)).
      specialize (Hkmax m (mk_is_Some _ _ Hm)). lia. }
    rewrite Heq.
    destruct (zone_fares !! required_zones) as [f|] eqn:Hrz.
    + specialize (Hmax required_zones (mk_is_Some _ _ Hrz)). lia.
    + simpl. congruence.
  - intros fare Hfare. rewrite Heq, Hfare. done.
Qed.

Lemma fare_for_zones_total_witness :
  scenario_fares ≠ ∅ ∧
  (∃ fare, fare_for_zones 7 scenario_fares = Returns fare) ∧
  fare_for_zones 7 scenario_fares = Returns 4.9%float ∧
  fare_for_zones 2 scenario_fares = Returns 3.75%float.
Proof.
  pose proof (fare_for_zones_total scenario_fares 7 scenario_fares_nonempty)
    as (Htot & Hcap & _).
  pose proof (fare_for_zones_total scenario_fares 2 scenario_fares_nonempty)
    as (_ & _ & Hkey).
  split; [exact scenario_fares_nonempty|]. split; [exact Htot|]. split.
  - apply (Hcap 3); [reflexivity| |lia].
    intros j [f Hj]. unfold scenario_fares in Hj.
    destruct (decide (j = 1)) as [->|?]; [lia|].
    destruct (decide (j = 2)) as [->|?]; [lia|].
    destruct (decide (j = 3)) as [->|?]; [lia|].
    by rewrite !lookup_insert_ne, lookup_empty in Hj.
  - apply Hkey. reflexivity.
Defined.

Section Engine.

Variable zone_fares : gmap Z float.
Hypothesis table_nonempty : zone_fares ≠ ∅.
Variable window_minutes : Z.

(** The three exits of the engine, on a table that is not empty. *)
Lemma engine_new_session (session : option FareSession)
    (trip_time_minute required_zones : Z) :
  (∀ s, session = Some s → window_minutes < trip_time_minute - start_minute s) →
  ∃ trip_cost, fare_for_zones required_zones zone_fares = Returns trip_cost ∧
    compute_fare_with_transfer_window session trip_time_minute required_zones
      zone_fares window_minutes
    = Returns (trip_cost, mkFareSession trip_time_minute required_zones).
Proof.
  intros Hexp.
  destruct (fare_for_zones_returns required_zones zone_fares table_nonempty)
    as (k & fk & _ & _ & Hcost).
  eexists. split; [exact Hcost|].
  unfold compute_fare_with_transfer_window. rewrite Hcost. simpl.
  destruct session as [s|]; [|done].
  specialize (Hexp s eq_refl).
  rewrite Z.gtb_ltb.
  destruct (Z.ltb_spec window_minutes (trip_time_minute - start_minute s)); [done|lia].
Qed.

Lemma engine_within_window (s : FareSession) (trip_time_minute required_zones : Z) :
  trip_time_minute - start_minute s ≤ window_minutes →
  ∃ trip_cost already_paid_cost,
    fare_for_zones required_zones zone_fares = Returns trip_cost ∧
    fare_for_zones (paid_zones s) zone_fares = Returns already_paid_cost ∧
    compute_fare_with_transfer_window (Some s) trip_time_minute required_zones
      zone_fares window_minutes
    = Returns
        (if required_zones <=? paid_zones s then (0%float, s)
         else (float_max 0%float (PrimFloat.sub trip_cost already_paid_cost),
               mkFareSession (start_minute s) required_zones)).
Proof.
  intros Hin.
  destruct (fare_for_zones_returns required_zones zone_fares table_nonempty)
    as (k & fk & _ & _ & Hcost).
  destruct (fare_for_zones_returns (paid_zones s) zone_fares table_nonempty)
    as (k' & fk' & _ & _ & Hpaid).
  do 2 eexists. split; [exact Hcost|]. split; [exact Hpaid|].
  unfold compute_fare_with_transfer_window. rewrite Hcost. simpl.
  rewrite Z.gtb_ltb.
  destruct (Z.ltb_spec window_minutes (trip_time_minute - start_minute s)); [lia|].
  rewrite Hpaid. simpl. by destruct (required_zones <=? paid_zones s).
Qed.

End Engine.

(** C1. With the table {1: 2.50, 2: 3.75, 3: 4.90} and a window of 60
    minutes, a first trip (no session) at minute 540 with
    [required_zones = 1] is charged 2.50, the table's fare for one zone,
    and yields the session (540, 1). The engine has no flat bus fare
    among its inputs: a bus trip reaches it as a one-zone trip. *)
Theorem scenario_first_trip :
  compute_fare_with_transfer_window None 540 1 scenario_fares 60
  = Returns (2.5%float, mkFareSession 540 1).
Proof. vm_compute. reflexivity. Qed.

(** The charge of that trip is not the flat bus fare 2.00. *)
Lemma flat_fare_not_charged :
  compute_fare_with_transfer_window None 540 1 scenario_fares 60
  ≠ Returns (2%float, mkFareSession 540 1).
Proof.
  intros H.
  apply (f_equal (λ r, match r with
                       | Returns (c, _) => PrimFloat.eqb c 2%float
                       | _ => true
                       end)) in H.
  vm_compute in H. discriminate H.
Qed.

(** C3. For a session and a table that is not empty, a trip at exactly
    [start_minute + window_minutes] is inside the window (free when the
    paid zones cover it, the upgrade difference otherwise, the session's
    start kept), and a trip one minute later starts a new session: the
    full fare of its [required_zones], [start_minute] the trip's time. *)
Theorem window_boundary (s : FareSession) (required_zones : Z)
    (zone_fares : gmap Z float) (window_minutes : Z) :
  zone_fares ≠ ∅ →
  ∃ trip_cost already_paid_cost,
    fare_for_zones required_zones zone_fares = Returns trip_cost ∧
    fare_for_zones (paid_zones s) zone_fares = Returns already_paid_cost ∧
    compute_fare_with_transfer_window (Some s)
      (start_minute s + window_minutes) required_zones zone_fares window_minutes
    = Returns
        (if required_zones <=? paid_zones s then (0%float, s)
         else (float_max 0%float (PrimFloat.sub trip_cost already_paid_cost),
               mkFareSession (start_minute s) required_zones)) ∧
    compute_fare_with_transfer_window (Some s)
      (start_minute s + window_minutes + 1) required_zones zone_fares window_minutes
    = Returns (trip_cost,
               mkFareSession (start_minute s + window_minutes + 1) required_zones).
Proof.
  intros Hne.
  destruct (engine_within_window zone_fares Hne window_minutes s
              (start_minute s + window_minutes) required_zones)
    as (c & p & Hc & Hp & Hin); [lia|].
  destruct (engine_new_session zone_fares Hne window_minutes (Some s)
              (start_minute s + window_minutes + 1) required_zones)
    as (c' & Hc' & Hout).
  { intros s' [= <-]. lia. }
  exists c, p. rewrite Hc in Hc'. injection Hc' as <-. done.
Qed.

Lemma window_boundary_witness :
  scenario_fares ≠ ∅ ∧
  compute_fare_with_transfer_window (Some (mkFareSession 540 1)) 600 2
    scenario_fares 60
  = Returns (1.25%float, mkFareSession 540 2) ∧
  compute_fare_with_transfer_window (Some (mkFareSession 540 1)) 601 2
    scenario_fares 60
  = Returns (3.75%float, mkFareSession 601 2).
Proof.
  split; [exact scenario_fares_nonempty|].
  destruct (window_boundary (mkFareSession 540 1) 2 scenario_fares 60
              scenario_fares_nonempty) as (c & p & Hc & Hp & Hin & Hout).
  vm_compute in Hc. injection Hc as <-.
  vm_compute in Hp. injection Hp as <-.
  split; [exact Hin | exact Hout].
Defined.

(** C4. Within the window, a trip whose [required_zones] the session's
    [paid_zones] cover is charged exactly 0 and the session is returned
    as it was. *)
Theorem covered_trip_is_free (s : FareSession)
    (trip_time_minute required_zones : Z)
    (zone_fares : gmap Z float) (window_minutes : Z) :
  zone_fares ≠ ∅ →
  trip_time_minute - start_minute s ≤ window_minutes →
  required_zones ≤ paid_zones s →
  compute_fare_with_transfer_window (Some s) trip_time_minute required_zones
    zone_fares window_minutes
  = Returns (0%float, s).
Proof.
  intros Hne Hin Hle.
  destruct (engine_within_window zone_fares Hne window_minutes s
              trip_time_minute required_zones Hin) as (c & p & _ & _ & ->).
  destruct (Z.leb_spec required_zones (paid_zones s)); [done|lia].
Qed.

Lemma covered_trip_is_free_witness :
  scenario_fares ≠ ∅ ∧ 560 - 540 ≤ 60 ∧ 1 ≤ 2 ∧
  compute_fare_with_transfer_window (Some (mkFareSession 540 2)) 560 1
    scenario_fares 60
  = Returns (0%float, mkFareSession 540 2).
Proof.
  split; [exact scenario_fares_nonempty|]. split; [lia|]. split; [lia|].
  apply (covered_trip_is_free (mkFareSession 540 2) 560 1 scenario_fares 60);
    [exact scenario_fares_nonempty | simpl; lia | simpl; lia].
Defined.

(** C5. Within the window, a trip that needs more zones than the session
    has paid is charged [max(0, fare(required_zones) - fare(paid_zones))],
    and the session returned keeps its [start_minute] and has
    [paid_zones = required_zones]. *)
Theorem upgrade_charges_difference (s : FareSession)
    (trip_time_minute required_zones : Z)
    (zone_fares : gmap Z float) (window_minutes : Z) :
  zone_fares ≠ ∅ →
  trip_time_minute - start_minute s ≤ window_minutes →
  paid_zones s < required_zones →
  ∃ trip_cost already_paid_cost,
    fare_for_zones required_zones zone_fares = Returns trip_cost ∧
    fare_for_zones (paid_zones s) zone_fares = Returns already_paid_cost ∧
    compute_fare_with_transfer_window (Some s) trip_time_minute required_zones
      zone_fares window_minutes
    = Returns (float_max 0%float (PrimFloat.sub trip_cost already_paid_cost),
               mkFareSession (start_minute s) required_zones).
Proof.
  intros Hne Hin Hlt.
  destruct (engine_within_window zone_fares Hne window_minutes s
              trip_time_minute required_zones Hin) as (c & p & Hc & Hp & ->).
  exists c, p. split; [done|]. split; [done|].
  destruct (Z.leb_spec required_zones (paid_zones s)); [lia|done].
Qed.

Lemma upgrade_charges_difference_witness :
  scenario_fares ≠ ∅ ∧ 560 - 540 ≤ 60 ∧ 1 < 2 ∧
  compute_fare_with_transfer_window (Some (mkFareSession 540 1)) 560 2
    scenario_fares 60
  = Returns (1.25%float, mkFareSession 540 2).
Proof.
  split; [exact scenario_fares_nonempty|]. split; [lia|]. split; [lia|].
  destruct (upgrade_charges_difference (mkFareSession 540 1) 560 2
              scenario_fares 60 scenario_fares_nonempty)
    as (c & p & Hc & Hp & Heq); [simpl; lia | simpl; lia |].
  vm_compute in Hc. injection Hc as <-.
  vm_compute in Hp. injection Hp as <-.
  exact Heq.
Defined.

(** C10. On a table that is not empty the engine returns, whatever the
    prior session, the trip time, the zones and the window, and the
    session it returns has [paid_zones] at least the trip's
    [required_zones]. *)
Theorem session_covers_trip (session : option FareSession)
    (trip_time_minute required_zones : Z)
    (zone_fares : gmap Z float) (window_minutes : Z) :
  zone_fares ≠ ∅ →
  ∃ charge session',
    compute_fare_with_transfer_window session trip_time_minute required_zones
      zone_fares window_minutes
    = Returns (charge, session') ∧
    required_zones ≤ paid_zones session'.
Proof.
  intros Hne.
  destruct session as [s|].
  2:{ destruct (engine_new_session zone_fares Hne window_minutes None
                  trip_time_minute required_zones) as (c & _ & ->); [done|].
      do 2 eexists. split; [done|]. simpl. lia. }
  destruct (Z.lt_ge_cases window_minutes (trip_time_minute - start_minute s))
    as [Hexp|Hin].
  - destruct (engine_new_session zone_fares Hne window_minutes (Some s)
                trip_time_minute required_zones) as (c & _ & ->).
    { by intros s' [= <-]. }
    do 2 eexists. split; [done|]. simpl. lia.
  - destruct (engine_within_window zone_fares Hne window_minutes s
                trip_time_minute required_zones Hin) as (c & p & _ & _ & ->).
    destruct (Z.leb_spec required_zones (paid_zones s)).
    + do 2 eexists. split; [done|]. done.
    + do 2 eexists. split; [done|]. simpl. lia.
Qed.

Lemma session_covers_trip_witness :
  scenario_fares ≠ ∅ ∧
  ∃ charge session',
    compute_fare_with_transfer_window (Some (mkFareSession 540 3)) 560 2
      scenario_fares 60
    = Returns (charge, session') ∧
    2 ≤ paid_zones session'.
Proof.
  split; [exact scenario_fares_nonempty|].
  apply (session_covers_trip (Some (mkFareSession 540 3)) 560 2 scenario_fares 60).
  exact scenario_fares_nonempty.
Defined.

End FareFacts.

(** ** Mode inference *)

Module PathFacts.
Import PathAnalyzer.

Section Upper.

Variable upper : string → string.

(** The flag after the loop: what it was, or a train-like edge seen. *)
Lemma scan_modes_spec (graph : gmap string (list Edge))
    (pairs : list (string * string)) (es : list Edge) (saw_train : bool) :
  segment_edges graph pairs = Returns es →
  scan_modes upper graph pairs saw_train
  = Returns (saw_train || bool_decide (Exists (train_like upper) es)).
Proof.
  revert es saw_train.
  induction pairs as [|[a b] pairs IH]; intros es saw_train Hes; simpl in *.
  - injection Hes as <-. rewrite bool_decide_eq_false_2.
    + by rewrite orb_false_r.
    + by intros ?%Exists_nil.
  - destruct (edge_info graph a b) as [e| |]; simpl in *; try discriminate.
    destruct (segment_edges graph pairs) as [es'| |]; simpl in *; try discriminate.
    injection Hes as <-. rewrite (IH es' _ eq_refl).
    f_equal.
    destruct (decide (upper (mode e) = "TRAIN"%string)) as [Ht|Ht].
    + rewrite (bool_decide_eq_true_2 (Exists _ (e :: es'))); [|by left].
      by rewrite orb_true_r.
    + f_equal. apply bool_decide_ext. rewrite Exists_cons.
      unfold train_like at 2. tauto.
Qed.

(** A path that the analyzer cannot follow through the network makes
    the inference raise, as the lookup of the missing connection does. *)
Lemma scan_modes_raises (graph : gmap string (list Edge))
    (pairs : list (string * string)) (saw_train : bool) (x : exn) :
  segment_edges graph pairs = Raises x →
  scan_modes upper graph pairs saw_train = Raises x.
Proof.
  revert saw_train.
  induction pairs as [|[a b] pairs IH]; intros saw_train Hes; simpl in *.
  - discriminate.
  - destruct (edge_info graph a b) as [e| |]; simpl in *; [|congruence|discriminate].
    destruct (segment_edges graph pairs) as [es'| |]; simpl in *; try discriminate.
    injection Hes as <-. by apply IH.
Qed.

End Upper.

(** C6. A path with fewer than two stations is classified train-like.
    For a path whose segments are connections of the network, the trip
    is train-like as soon as one segment's mode label is train-like
    (after [upper]), however many others are not, and it is bus-like
    exactly when the path has a segment and no segment is train-like. *)
Theorem infer_mode_spec (upper : string → string)
    (graph : gmap string (list Edge)) (path : list string) :
  ((length path < 2)%nat →
     infer_mode_for_path upper graph path = Returns "TRAIN"%string) ∧
  (∀ es, segment_edges graph (segments path) = Returns es →
     (Exists (train_like upper) es →
        infer_mode_for_path upper graph path = Returns "TRAIN"%string) ∧
     (infer_mode_for_path upper graph path = Returns "BUS"%string ↔
        (2 ≤ length path)%nat ∧ Forall (λ e, ¬ train_like upper e) es)).
Proof.
  unfold infer_mode_for_path. split.
  - intros Hlen. destruct (Nat.ltb_spec (length path) 2); [done|lia].
  - intros es Hes.
    destruct (Nat.ltb_spec (length path) 2) as [Hlen|Hlen].
    + split; [done|]. split; [discriminate|]. intros [? _]. lia.
    + rewrite (scan_modes_spec upper graph _ es false Hes). simpl.
      split.
      * intros Hex. by rewrite bool_decide_eq_true_2.
      * assert (Forall (λ e, ¬ train_like upper e) es
                ↔ ¬ Exists (train_like upper) es) as ->.
        { rewrite Forall_forall, Exists_exists. split.
          - intros H (e & Hin & He). exact (H e Hin He).
          - intros H e Hin He. apply H. eauto. }
        destruct (decide (Exists (train_like upper) es)) as [Hex|Hex].
        -- rewrite bool_decide_eq_true_2 by done. simpl.
           split; [discriminate|]. intros [_ ?]. done.
        -- rewrite bool_decide_eq_false_2 by done. simpl.
           split; [intros _; split; [lia|done] | done].
Qed.

Lemma infer_mode_spec_witness :
  infer_mode_for_path ascii_upper Routing.demo_graph ["A"; "C"; "B"; "D"]%string
    = Returns "TRAIN"%string ∧
  infer_mode_for_path ascii_upper Routing.demo_graph ["A"; "C"; "B"]%string
    = Returns "BUS"%string ∧
  infer_mode_for_path ascii_upper Routing.demo_graph ["Q"]%string
    = Returns "TRAIN"%string.
Proof.
  split; [|split].
  - destruct (infer_mode_spec ascii_upper Routing.demo_graph
                ["A"; "C"; "B"; "D"]%string) as [_ Hsegs].
    destruct (Hsegs _ eq_refl) as [Htrain _].
    apply Htrain. do 2 apply Exists_cons_tl. apply Exists_cons_hd. reflexivity.
  - destruct (infer_mode_spec ascii_upper Routing.demo_graph
                ["A"; "C"; "B"]%string) as [_ Hsegs].
    destruct (Hsegs _ eq_refl) as [_ Hbus].
    apply Hbus. split; [simpl; lia|].
    repeat (apply Forall_cons; split; [by vm_compute|]). apply Forall_nil_2.
  - destruct (infer_mode_spec ascii_upper Routing.demo_graph ["Q"]%string)
      as [Hshort _].
    apply Hshort. simpl. lia.
Defined.

End PathFacts.

(** ** The shortest-path finder *)

Module RoutingFacts.
Import Routing.

(** *** The priority queue *)

Lemma least_elem (x : item) (l : list item) : least x l ∈ x :: l.
Proof.
  revert x. induction l as [|y l IH]; intros x; simpl.
  - left.
  - specialize (IH (if item_ltb y x then y else x)).
    apply elem_of_cons in IH as [->|IH].
    + destruct (item_ltb y x); [right; left | left].
    + do 2 right. done.
Qed.

Lemma item_ltb_fst (x y : item) : item_ltb x y = true → x.1 ≤ y.1.
Proof.
  unfold item_ltb. intros [H|H]%orb_true_iff.
  - apply Z.ltb_lt in H. lia.
  - apply andb_true_iff in H as [H _]. apply Z.eqb_eq in H. lia.
Qed.

Lemma item_ltb_not_fst (x y : item) : item_ltb x y = false → y.1 ≤ x.1.
Proof.
  unfold item_ltb. intros [H _]%orb_false_iff.
  apply Z.ltb_ge in H. lia.
Qed.

(** The entry selected has the least distance; no law of the order on
    station ids is needed for that. *)
Lemma least_min (x : item) (l : list item) (y : item) :
  y ∈ x :: l → (least x l).1 ≤ y.1.
Proof.
  revert x y. induction l as [|z l IH]; intros x y Hy; simpl.
  - apply list_elem_of_singleton in Hy as ->. lia.
  - destruct (item_ltb z x) eqn:Hzx.
    + apply item_ltb_fst in Hzx.
      apply elem_of_cons in Hy as [->|Hy].
      * specialize (IH z z (list_elem_of_here _ _)). lia.
      * apply IH. done.
    + apply item_ltb_not_fst in Hzx.
      apply elem_of_cons in Hy as [->|Hy].
      * apply IH. left.
      * apply elem_of_cons in Hy as [->|Hy].
        -- specialize (IH x x (list_elem_of_here _ _)). lia.
        -- apply IH. by right.
Qed.

(** [item_ltb] is the strict part of a total order, and the entry
    selected is the least of the bag in it, in whatever order the bag
    is kept. *)
Lemma string_ltb_leb (s1 s2 : string) :
  String.ltb s1 s2 = negb (String.leb s2 s1).
Proof.
  unfold String.ltb, String.leb. rewrite (String.compare_antisym s1 s2).
  by destruct (String.compare s2 s1).
Qed.

Lemma item_ltb_false (a b : item) :
  item_ltb b a = false ↔
  a.1 < b.1 ∨ (a.1 = b.1 ∧ String.leb a.2 b.2 = true).
Proof.
  unfold item_ltb. rewrite string_ltb_leb, orb_false_iff, Z.ltb_ge.
  destruct (Z.eqb_spec b.1 a.1) as [Heq|Hne]; simpl.
  - rewrite negb_false_iff. split; [intros [_ ?]; right; done|].
    intros [?|[_ ?]]; [lia|]. split; [lia|done].
  - split; [intros [? _]; left; lia|]. intros [?|[? _]]; [|lia].
    split; [lia|done].
Qed.

Lemma item_le_trans (a b c : item) :
  item_ltb b a = false → item_ltb c b = false → item_ltb c a = false.
Proof.
  rewrite !item_ltb_false.
  intros [Hab|[Hab Hsab]] [Hbc|[Hbc Hsbc]]; try (left; lia).
  right. split; [lia|]. apply Is_true_true.
  transitivity b.2; by apply Is_true_true.
Qed.

Lemma item_lt_le (a b : item) : item_ltb a b = true → item_ltb b a = false.
Proof.
  intros Hab. apply item_ltb_false. unfold item_ltb in Hab.
  apply orb_true_iff in Hab as [H|H]; [left; by apply Z.ltb_lt|].
  apply andb_true_iff in H as [Hd Hs]. apply Z.eqb_eq in Hd.
  right. split; [done|].
  rewrite string_ltb_leb in Hs. apply negb_true_iff in Hs.
  destruct (String.leb_total a.2 b.2) as [H|H]; [done|congruence].
Qed.

Lemma item_le_refl (a : item) : item_ltb a a = false.
Proof.
  apply item_ltb_false. right. split; [done|].
  by destruct (String.leb_total a.2 a.2).
Qed.

Lemma least_lower_bound (x : item) (l : list item) (y : item) :
  y ∈ x :: l → item_ltb y (least x l) = false.
Proof.
  revert x y. induction l as [|z l IH]; intros x y Hy; simpl.
  - apply list_elem_of_singleton in Hy as ->. apply item_le_refl.
  - destruct (item_ltb z x) eqn:Hzx.
    + apply elem_of_cons in Hy as [->|Hy]; [|by apply IH].
      eapply item_le_trans; [apply (IH z z); left|by apply item_lt_le].
    + apply elem_of_cons in Hy as [->|Hy]; [apply IH; left|].
      apply elem_of_cons in Hy as [->|Hy]; [|apply IH; by right].
      eapply item_le_trans; [apply (IH x x); left|done].
Qed.

Lemma remove_one_perm (x : item) (l : list item) :
  x ∈ l → l ≡ₚ x :: remove_one x l.
Proof.
  induction l as [|y l IH]; intros Hx; simpl.
  - by apply elem_of_nil in Hx.
  - destruct (decide (y = x)) as [->|Hne]; [done|].
    apply elem_of_cons in Hx as [->|Hx]; [done|].
    rewrite (IH Hx) at 1. apply Permutation_swap.
Qed.

Lemma heappop_Some (pq : list item) (m : item) (pq' : list item) :
  heappop pq = Some (m, pq') →
  pq ≡ₚ m :: pq' ∧ ∀ y, y ∈ pq → m.1 ≤ y.1.
Proof.
  destruct pq as [|x l]; simpl; [done|].
  intros [= <- <-]. split.
  - apply remove_one_perm. apply least_elem.
  - apply least_min.
Qed.

Lemma heappop_None (pq : list item) : heappop pq = None → pq = [].
Proof. by destruct pq. Qed.

Lemma item_le_antisym (a b : item) :
  item_ltb b a = false → item_ltb a b = false → a = b.
Proof.
  rewrite !item_ltb_false. destruct a as [d1 s1], b as [d2 s2]. simpl.
  intros [?|[Heq Hab]] [?|[? Hba]]; try (exfalso; lia).
  subst d2. f_equal. by apply String.leb_antisym.
Qed.

(** What is popped, and what is left, do not depend on the order in
    which the bag is kept. *)
Lemma heappop_perm (pq1 pq2 : list item) (m1 m2 : item) (rest1 rest2 : list item) :
  pq1 ≡ₚ pq2 →
  heappop pq1 = Some (m1, rest1) → heappop pq2 = Some (m2, rest2) →
  m1 = m2 ∧ rest1 ≡ₚ rest2.
Proof.
  intros Hperm Hpop1 Hpop2.
  assert (Hlow : ∀ pq m rest, heappop pq = Some (m, rest) →
                 m ∈ pq ∧ ∀ y, y ∈ pq → item_ltb y m = false).
  { intros [|x l] m rest; simpl; [done|]. intros [= <- <-].
    split; [apply least_elem|apply least_lower_bound]. }
  destruct (Hlow _ _ _ Hpop1) as [Hin1 Hmin1].
  destruct (Hlow _ _ _ Hpop2) as [Hin2 Hmin2].
  assert (m1 = m2) as ->.
  { apply item_le_antisym.
    - apply Hmin1. by rewrite Hperm.
    - apply Hmin2. by rewrite <- Hperm. }
  split; [done|].
  apply heappop_Some in Hpop1 as [Hp1 _]. apply heappop_Some in Hpop2 as [Hp2 _].
  apply (Permutation_cons_inv (a:=m2)). by rewrite <- Hp1, <- Hp2.
Qed.

(** *** One relaxation *)

#[local] Arguments relax : simpl never.

Lemma relax_cases (cur : string) (cur_dist : Z) (dist : gmap string Z)
    (prev : gmap string (option string)) (pq : list item) (e : Edge) :
  (relax cur cur_dist (dist, prev, pq) e = (dist, prev, pq) ∧
   ∃ d, dist !! to_id e = Some d ∧ d ≤ cur_dist + minutes e) ∨
  (relax cur cur_dist (dist, prev, pq) e
   = (<[to_id e := cur_dist + minutes e]> dist, <[to_id e := Some cur]> prev,
      (cur_dist + minutes e, to_id e) :: pq) ∧
   ∀ d, dist !! to_id e = Some d → cur_dist + minutes e < d).
Proof.
  unfold relax, heappush. destruct (dist !! to_id e) as [d|] eqn:Hd.
  - destruct (Z.ltb_spec (cur_dist + minutes e) d).
    + right. split; [done|]. by intros ? [= <-].
    + left. eauto.
  - right. split; [done|]. done.
Qed.

Lemma foldl_relax_length (cur : string) (cur_dist : Z) (edges : list Edge)
    (acc : gmap string Z * gmap string (option string) * list item) :
  (length (foldl (relax cur cur_dist) acc edges).2 ≤ length acc.2 + length edges)%nat.
Proof.
  revert acc. induction edges as [|e edges IH]; intros [[d p] q]; [simpl; lia|].
  specialize (IH (relax cur cur_dist (d, p, q) e)).
  change (foldl (relax cur cur_dist) (d, p, q) (e :: edges))
    with (foldl (relax cur cur_dist) (relax cur cur_dist (d, p, q) e) edges).
  destruct (relax_cases cur cur_dist d p q e) as [[Heq _]|[Heq _]];
    rewrite Heq in *; simpl in *; lia.
Qed.

(** Distances only go down, and after its turn the end of a connection
    is no farther than through the connection. *)
Lemma relax_dist_le (cur : string) (cur_dist : Z)
    (acc : gmap string Z * gmap string (option string) * list item)
    (e : Edge) (y : string) (dy : Z) :
  acc.1.1 !! y = Some dy →
  ∃ dy', (relax cur cur_dist acc e).1.1 !! y = Some dy' ∧ dy' ≤ dy.
Proof.
  destruct acc as [[dist prev] pq]. simpl. intros Hy.
  destruct (relax_cases cur cur_dist dist prev pq e) as [[-> _]|[-> Hlt]]; simpl.
  - exists dy. split; [done|lia].
  - destruct (decide (to_id e = y)) as [<-|Hne].
    + rewrite lookup_insert_eq. eexists. split; [done|].
      specialize (Hlt dy Hy). lia.
    + rewrite lookup_insert_ne by done. exists dy. split; [done|lia].
Qed.

Lemma foldl_relax_dist_le (cur : string) (cur_dist : Z) (l : list Edge)
    (acc : gmap string Z * gmap string (option string) * list item)
    (y : string) (dy : Z) :
  acc.1.1 !! y = Some dy →
  ∃ dy', (foldl (relax cur cur_dist) acc l).1.1 !! y = Some dy' ∧ dy' ≤ dy.
Proof.
  revert acc dy. induction l as [|e l IH]; intros acc dy Hy.
  - exists dy. split; [done|lia].
  - change (foldl (relax cur cur_dist) acc (e :: l))
      with (foldl (relax cur cur_dist) (relax cur cur_dist acc e) l).
    destruct (relax_dist_le cur cur_dist acc e y dy Hy) as (d1 & Hd1 & Hle1).
    destruct (IH _ d1 Hd1) as (d2 & Hd2 & Hle2).
    exists d2. split; [done|lia].
Qed.

Lemma relax_edge (cur : string) (cur_dist : Z)
    (acc : gmap string Z * gmap string (option string) * list item) (e : Edge) :
  ∃ dy, (relax cur cur_dist acc e).1.1 !! to_id e = Some dy ∧
        dy ≤ cur_dist + minutes e.
Proof.
  destruct acc as [[dist prev] pq].
  destruct (relax_cases cur cur_dist dist prev pq e)
    as [[-> (d & Hd & Hle)]|[-> _]]; simpl.
  - eauto.
  - rewrite lookup_insert_eq. eexists. split; [done|lia].
Qed.

Lemma foldl_relax_edges (cur : string) (cur_dist : Z) (l : list Edge)
    (acc : gmap string Z * gmap string (option string) * list item) (e : Edge) :
  e ∈ l →
  ∃ dy, (foldl (relax cur cur_dist) acc l).1.1 !! to_id e = Some dy ∧
        dy ≤ cur_dist + minutes e.
Proof.
  revert acc. induction l as [|e' l IH]; intros acc He.
  - by apply elem_of_nil in He.
  - change (foldl (relax cur cur_dist) acc (e' :: l))
      with (foldl (relax cur cur_dist) (relax cur cur_dist acc e') l).
    apply elem_of_cons in He as [->|He]; [|by apply IH].
    destruct (relax_edge cur cur_dist acc e') as (d1 & Hd1 & Hle1).
    destruct (foldl_relax_dist_le cur cur_dist l _ _ d1 Hd1) as (d2 & Hd2 & Hle2).
    exists d2. split; [done|lia].
Qed.

(** *** The loop ends *)

Section Termination.

Variable graph : gmap string (list Edge).
Variable goal_id : string.

#[local] Abbreviation pending := (pending graph).
#[local] Abbreviation measure := (measure graph).

Lemma sum_list_fmap_le {A : Type} (f g : A → nat) (l : list A) :
  (∀ y, y ∈ l → (f y ≤ g y)%nat) →
  (sum_list (f <$> l) ≤ sum_list (g <$> l))%nat.
Proof.
  induction l as [|z l IH]; intros Hle; csimpl; [lia|].
  pose proof (Hle z (list_elem_of_here _ _)).
  pose proof (IH (λ w Hw, Hle w (list_elem_of_further _ _ _ Hw))).
  lia.
Qed.

Lemma sum_list_fmap_gap {A : Type} (f g : A → nat) (l : list A) (x : A) (c : nat) :
  (∀ y, y ∈ l → (f y ≤ g y)%nat) → x ∈ l → (f x + c ≤ g x)%nat →
  (sum_list (f <$> l) + c ≤ sum_list (g <$> l))%nat.
Proof.
  intros Hle Hx Hgap. induction l as [|y l IH]; csimpl.
  - by apply elem_of_nil in Hx.
  - apply elem_of_cons in Hx as [->|Hx].
    + pose proof (sum_list_fmap_le f g l
                    (λ w Hw, Hle w (list_elem_of_further _ _ _ Hw))).
      lia.
    + pose proof (Hle y (list_elem_of_here _ _)).
      pose proof (IH (λ w Hw, Hle w (list_elem_of_further _ _ _ Hw)) Hx).
      lia.
Qed.

Lemma pending_visit (seen : gset string) (cur : string) (edges : list Edge) :
  graph !! cur = Some edges → cur ∉ seen →
  (pending ({[cur]} ∪ seen) + length edges ≤ pending seen)%nat.
Proof.
  intros Hcur Hnew. unfold pending.
  apply (sum_list_fmap_gap _ _ _ (cur, edges)).
  - intros [u es] _. simpl.
    destruct (decide (u ∈ {[cur]} ∪ seen)), (decide (u ∈ seen)); try lia.
    set_solver.
  - by apply elem_of_map_to_list.
  - simpl. rewrite decide_True by set_solver. rewrite decide_False by done. lia.
Qed.

Lemma pending_empty : pending ∅ = edge_count graph.
Proof.
  unfold pending, edge_count. f_equal.
  rewrite <- list_fmap_compose. apply list_fmap_ext.
  intros i [u es] _. simpl. by rewrite decide_False by set_solver.
Qed.

Lemma dijkstra_loop_measure (fuel : nat) (st : state) :
  (measure st < fuel)%nat → dijkstra_loop fuel graph goal_id st ≠ Diverges.
Proof.
  revert st. induction fuel as [|fuel IH]; intros st Hlt; [lia|].
  simpl. destruct (heappop (pq st)) as [[[cur_dist cur] pq']|] eqn:Hpop; [|done].
  apply heappop_Some in Hpop as [Hperm _].
  apply Permutation_length in Hperm. simpl in Hperm.
  unfold measure in Hlt.
  destruct (decide (cur ∈ visited st)).
  - apply IH. unfold measure. simpl. lia.
  - destruct (decide (cur = goal_id)); [done|].
    destruct (graph !! cur) as [edges|] eqn:Hcur; [|done].
    pose proof (foldl_relax_length cur cur_dist edges (dist st, prev st, pq')) as Hlen.
    destruct (foldl (relax cur cur_dist) (dist st, prev st, pq') edges)
      as [[dist' prev'] pq''].
    apply IH. unfold measure. simpl in *.
    pose proof (pending_visit (visited st) cur edges Hcur n). lia.
Qed.

(** The bound of [dijkstra_path] is enough from the initial state. *)
Lemma dijkstra_loop_fuel (start_id : string) :
  dijkstra_loop (loop_fuel graph) graph goal_id (init start_id) ≠ Diverges.
Proof.
  apply dijkstra_loop_measure. unfold measure, loop_fuel. simpl.
  rewrite pending_empty. lia.
Qed.

End Termination.

(** *** Routes *)

Lemma route_snoc (graph : gmap string (list Edge)) (a : string)
    (path : list string) (total : Z) (u : string) (edges : list Edge) (e : Edge) :
  route graph a path total u → graph !! u = Some edges → e ∈ edges →
  route graph a (path ++ [to_id e]) (total + minutes e) (to_id e).
Proof.
  intros Hr Hu He. induction Hr as [u|u es e' path total v Hu' He' Hr IH].
  - replace (0 + minutes e) with (minutes e + 0) by lia.
    eapply (route_step graph u edges e [to_id e] 0); [done..|]. constructor.
  - replace (minutes e' + total + minutes e)
      with (minutes e' + (total + minutes e)) by lia.
    simpl. econstructor; eauto.
Qed.

Lemma route_nonneg (graph : gmap string (list Edge)) (a : string)
    (path : list string) (total : Z) (u : string) :
  nonneg graph → route graph a path total u → 0 ≤ total.
Proof.
  intros Hpos Hr. induction Hr as [u|u es e path total v Hu He Hr IH]; [lia|].
  specialize (Hpos u es e Hu He). lia.
Qed.

(** A route that moves ends with a connection into its last station. *)
Lemma route_last_edge (graph : gmap string (list Edge)) (a : string)
    (path : list string) (total : Z) (b : string) :
  route graph a path total b →
  a = b ∨ ∃ u edges e, graph !! u = Some edges ∧ e ∈ edges ∧ to_id e = b.
Proof.
  induction 1 as [u|u edges e path total v Hu He Hr [IH|IH]]; [by left|..].
  - right. by exists u, edges, e.
  - by right.
Qed.

(** Cases on a connection of the demo network. *)
Ltac demo_edges Hu He :=
  unfold demo_graph in Hu; apply elem_of_list_to_map_2 in Hu;
  repeat (apply elem_of_cons in Hu as [[= -> ->]|Hu]);
  try (by apply elem_of_nil in Hu);
  repeat (apply elem_of_cons in He as [->|He]);
  try (by apply elem_of_nil in He).

Lemma demo_graph_nonneg : nonneg demo_graph.
Proof. intros u edges e Hu He. demo_edges Hu He; simpl; lia. Qed.

Lemma demo_graph_closed : closed demo_graph.
Proof.
  intros u edges e Hu He.
  demo_edges Hu He; simpl; eexists; vm_compute; reflexivity.
Qed.

Lemma demo_graph_Z_unreachable : ¬ reachable demo_graph "A" "Z".
Proof.
  intros (path & total & Hr).
  apply route_last_edge in Hr as [Heq|(u & edges & e & Hu & He & Hto)];
    [done|].
  demo_edges Hu He; done.
Qed.

Lemma route_head (graph : gmap string (list Edge)) (a : string)
    (path : list string) (total : Z) (u : string) :
  route graph a path total u → ∃ rest, path = a :: rest.
Proof. destruct 1; eauto. Qed.

Lemma first_edge_to_elem (b : string) (edges : list Edge) (e : Edge) :
  PathAnalyzer.first_edge_to b edges = Returns e → e ∈ edges ∧ to_id e = b.
Proof.
  induction edges as [|e' edges IH]; simpl; [done|].
  destruct (decide (to_id e' = b)) as [Heq|Hne].
  - intros [= <-]. split; [left|done].
  - intros [Hin Hto]%IH. split; [by right|done].
Qed.

Lemma first_edge_to_unique (edges : list Edge) (e : Edge) :
  NoDup (to_id <$> edges) → e ∈ edges →
  PathAnalyzer.first_edge_to (to_id e) edges = Returns e.
Proof.
  induction edges as [|e' edges IH]; csimpl; intros Hnd He.
  - by apply elem_of_nil in He.
  - apply NoDup_cons in Hnd as [Hfresh Hnd].
    destruct (decide (to_id e' = to_id e)) as [Heq|Hne].
    + apply elem_of_cons in He as [->|He]; [done|].
      exfalso. apply Hfresh. rewrite Heq. by apply list_elem_of_fmap_2.
    + apply elem_of_cons in He as [->|He]; [done|]. by apply IH.
Qed.

Lemma path_minutes_cons (graph : gmap string (list Edge)) (a b : string)
    (rest : list string) :
  path_minutes graph (a :: b :: rest)
  = e ← PathAnalyzer.edge_info graph a b;
    total ← path_minutes graph (b :: rest);
    Returns (minutes e + total).
Proof.
  unfold path_minutes.
  change (PathAnalyzer.segments (a :: b :: rest))
    with ((a, b) :: PathAnalyzer.segments (b :: rest)).
  generalize (PathAnalyzer.segments (b :: rest)). intros pairs. simpl.
  destruct (PathAnalyzer.edge_info graph a b) as [e| |]; simpl; [|done..].
  by destruct (PathAnalyzer.segment_edges graph pairs).
Qed.

(** Where one connection at most joins two stations, the analyzer reads
    the minutes of a route off its path. *)
Lemma route_path_minutes (graph : gmap string (list Edge)) (a : string)
    (path : list string) (total : Z) (u : string) :
  single_connection graph → route graph a path total u →
  path_minutes graph path = Returns total.
Proof.
  intros Hone Hr.
  induction Hr as [u|u edges e path total v Hu He Hr IH]; [done|].
  destruct (route_head _ _ _ _ _ Hr) as [rest ->].
  rewrite path_minutes_cons, IH.
  unfold PathAnalyzer.edge_info. rewrite Hu.
  by rewrite (first_edge_to_unique edges e (Hone u edges Hu) He).
Qed.

(** What the analyzer reads as the minutes of a path are the minutes of
    a route along it. *)
Lemma path_minutes_route (graph : gmap string (list Edge))
    (path : list string) (a b : string) (total : Z) :
  head path = Some a → last path = Some b →
  path_minutes graph path = Returns total →
  route graph a path total b.
Proof.
  revert a total. induction path as [|a' path IH]; intros a total Ha Hb Hm;
    [done|].
  injection Ha as ->.
  destruct path as [|a2 rest].
  - injection Hb as <-. injection Hm as <-. constructor.
  - rewrite path_minutes_cons in Hm.
    unfold PathAnalyzer.edge_info in Hm.
    destruct (graph !! a) as [edges|] eqn:Hedges; [|done].
    destruct (PathAnalyzer.first_edge_to a2 edges) as [e| |] eqn:He; [|done..].
    apply first_edge_to_elem in He as [He Hto]. simpl in Hm.
    destruct (path_minutes graph (a2 :: rest)) as [t| |] eqn:Ht; [|done..].
    injection Hm as <-.
    eapply route_step; [done..|]. rewrite Hto. by apply IH.
Qed.

(** *** Only reachable stations get a distance; no lookup fails *)

Section Reach.

Variable graph : gmap string (list Edge).
Variables start_id goal_id : string.
Hypothesis graph_closed : closed graph.

#[local] Abbreviation reachable := (reachable graph start_id).
#[local] Abbreviation known := (known graph start_id).

Lemma relax_known (cur : string) (cur_dist : Z) (edges : list Edge) (e : Edge)
    (dist : gmap string Z) (prev : gmap string (option string)) (pq : list item) :
  graph !! cur = Some edges → e ∈ edges → reachable cur →
  known dist pq →
  known (relax cur cur_dist (dist, prev, pq) e).1.1
        (relax cur cur_dist (dist, prev, pq) e).2.
Proof.
  intros Hcur He (path & total & Hr) [Hd Hq].
  destruct (relax_cases cur cur_dist dist prev pq e) as [[-> _]|[-> _]]; simpl.
  { by split. }
  split.
  - intros v d. rewrite lookup_insert. case_decide as Hv.
    + intros _. subst v. split; [by eapply graph_closed|].
      do 2 eexists. by eapply route_snoc.
    + apply Hd.
  - intros d x [[= -> ->]|Hin]%elem_of_cons.
    + rewrite lookup_insert_eq. eauto.
    + rewrite lookup_insert. case_decide; [eauto|]. by eapply Hq.
Qed.

Lemma foldl_relax_known (cur : string) (cur_dist : Z) (edges : list Edge)
    (l : list Edge)
    (acc : gmap string Z * gmap string (option string) * list item) :
  graph !! cur = Some edges → l ⊆ edges → reachable cur →
  known acc.1.1 acc.2 →
  known (foldl (relax cur cur_dist) acc l).1.1
        (foldl (relax cur cur_dist) acc l).2.
Proof.
  intros Hcur Hsub Hreach. revert acc.
  induction l as [|e l IH]; intros [[dist prev] pq] Hk; [done|].
  change (foldl (relax cur cur_dist) (dist, prev, pq) (e :: l))
    with (foldl (relax cur cur_dist) (relax cur cur_dist (dist, prev, pq) e) l).
  apply IH.
  - intros x Hx. apply Hsub. by right.
  - destruct (relax cur cur_dist (dist, prev, pq) e) as [[dist' prev'] pq'] eqn:Heq.
    pose proof (relax_known cur cur_dist edges e dist prev pq Hcur) as Hstep.
    rewrite Heq in Hstep. apply Hstep; [|done..]. apply Hsub. left.
Qed.

Lemma dijkstra_loop_known (fuel : nat) (st : state) :
  known (dist st) (pq st) →
  match dijkstra_loop fuel graph goal_id st with
  | Returns st' => known (dist st') (pq st')
  | Raises _ => False
  | Diverges => True
  end.
Proof.
  revert st. induction fuel as [|fuel IH]; intros st Hk; [done|].
  simpl. destruct (heappop (pq st)) as [[[cur_dist cur] pq']|] eqn:Hpop; [|done].
  apply heappop_Some in Hpop as [Hperm _].
  assert (Hk' : known (dist st) pq').
  { destruct Hk as [Hd Hq]. split; [done|]. intros d x Hin.
    apply (Hq d x). rewrite Hperm. by right. }
  destruct (decide (cur ∈ visited st)); [by apply IH|].
  destruct (decide (cur = goal_id)); [done|].
  assert (Hcur : is_Some (dist st !! cur)).
  { destruct Hk as [_ Hq]. apply (Hq cur_dist). rewrite Hperm. left. }
  destruct Hcur as [d Hcur].
  destruct Hk as [Hd Hq]. destruct (Hd cur d Hcur) as [[edges Hedges] Hreach].
  rewrite Hedges.
  pose proof (foldl_relax_known cur cur_dist edges edges (dist st, prev st, pq')
                Hedges (reflexivity _) Hreach Hk') as Hfold.
  destruct (foldl (relax cur cur_dist) (dist st, prev st, pq') edges)
    as [[dist' prev'] pq''].
  by apply IH.
Qed.

Lemma init_known :
  is_Some (graph !! start_id) → known (dist (init start_id)) (pq (init start_id)).
Proof.
  intros Hstart. split; simpl.
  - intros v d [<- <-]%lookup_singleton_Some. split; [done|].
    exists [start_id], 0. constructor.
  - intros d x [= -> ->]%list_elem_of_singleton. rewrite lookup_singleton_eq. eauto.
Qed.

End Reach.

(** *** Walking back along [prev] *)

Lemma walk_back_None (fuel : nat) (prev : gmap string (option string))
    (path : list string) :
  walk_back fuel prev None path = Returns path.
Proof. by destruct fuel. Qed.

Lemma walk_back_Some (fuel : nat) (prev : gmap string (option string))
    (c : string) (path : list string) :
  walk_back (S fuel) prev (Some c) path
  = walk_back fuel prev (prev_get prev c) (path ++ [c]).
Proof. done. Qed.

#[local] Arguments walk_back : simpl never.

(** [Diverges] stands for a walk that never ends: when the bound of
    [dijkstra_path] is not enough, no bound is. *)
Section Cycle.

Variable prev : gmap string (option string).

#[local] Abbreviation nth_back := (nth_back prev).

Lemma nth_back_S (k : nat) (cur : option string) :
  nth_back (S k) cur = nth_back k (cur ≫= prev_get prev).
Proof. unfold Routing.nth_back. by rewrite Nat.iter_succ_r. Qed.

Lemma nth_back_add (k m : nat) (cur : option string) :
  nth_back (k + m) cur = nth_back m (nth_back k cur).
Proof.
  revert cur. induction k as [|k IH]; intros cur; [done|].
  replace (S k + m)%nat with (S (k + m)) by lia.
  by rewrite !nth_back_S, IH.
Qed.

Lemma walk_back_Diverges (fuel : nat) (cur : option string)
    (path : list string) :
  walk_back fuel prev cur path = Diverges ↔
  ∀ k, (k ≤ fuel)%nat → is_Some (nth_back k cur).
Proof.
  revert cur path. induction fuel as [|fuel IH]; intros [c|] path.
  - split; [|done]. intros _ k Hk. replace k with O by lia. by eexists.
  - rewrite walk_back_None. split; [done|].
    intros H. by destruct (H O (le_n _)) as [? [=]].
  - rewrite walk_back_Some, IH. split.
    + intros H [|k] Hk; [by eexists|]. rewrite nth_back_S. apply H. lia.
    + intros H k Hk. specialize (H (S k)). rewrite nth_back_S in H.
      apply H. lia.
  - rewrite walk_back_None. split; [done|].
    intros H. by destruct (H O (Nat.le_0_l _)) as [? [=]].
Qed.

Lemma elem_of_size_ne_0 (D : gset string) (x : string) : x ∈ D → size D ≠ O.
Proof.
  intros Hx H0. apply size_empty_inv in H0.
  apply (not_elem_of_empty (C:=gset string) x). by rewrite <- H0.
Qed.

(** More stations than a set has cannot all differ. *)
Lemma pigeonhole (n : nat) (D : gset string) (c : nat → string) :
  (∀ k, (k ≤ n)%nat → c k ∈ D) → (size D ≤ n)%nat →
  ∃ i j, (i < j ≤ n)%nat ∧ c i = c j.
Proof.
  revert D. induction n as [|n IH]; intros D Hin Hsize.
  - pose proof (elem_of_size_ne_0 D _ (Hin O (le_n _))). lia.
  - destruct (decide (Exists (λ i, c i = c (S n)) (seq 0 (S n)))) as [Hex|Hnex].
    + apply Exists_exists in Hex as (i & Hi & Heq).
      apply elem_of_seq in Hi. exists i, (S n). split; [lia|done].
    + destruct (IH (D ∖ {[c (S n)]})) as (i & j & Hij & Heq).
      * intros k Hk. apply elem_of_difference. split; [apply Hin; lia|].
        intros Heq%elem_of_singleton. apply Hnex, Exists_exists.
        exists k. split; [|done]. apply elem_of_seq. lia.
      * assert (Hsub : ({[c (S n)]} : gset string) ⊆ D).
        { apply singleton_subseteq_l. by apply Hin. }
        pose proof (size_difference _ _ Hsub) as Hdiff.
        rewrite size_singleton in Hdiff.
        pose proof (elem_of_size_ne_0 D _ (Hin O (Nat.le_0_l _))). lia.
      * exists i, j. split; [lia|done].
Qed.

Lemma walk_back_diverges (cur : option string) (path : list string) :
  walk_back (S (size prev)) prev cur path = Diverges →
  ∀ fuel path', walk_back fuel prev cur path' = Diverges.
Proof.
  intros Hwalk fuel path'.
  pose proof (proj1 (walk_back_Diverges _ _ _) Hwalk) as Hdiv.
  apply walk_back_Diverges. intros k _. clear fuel path' path Hwalk.
  set (c := λ k, default EmptyString (nth_back k cur)).
  assert (Hc : ∀ k, (k ≤ S (size prev))%nat → nth_back k cur = Some (c k)).
  { intros i Hi. unfold c. by destruct (Hdiv i Hi) as [? ->]. }
  destruct (pigeonhole (size prev) (dom prev) c) as (i & j & Hij & Heq).
  { intros i Hi. apply elem_of_dom.
    destruct (Hdiv (S i)) as [x Hx]; [lia|].
    replace (S i) with (i + 1)%nat in Hx by lia.
    rewrite nth_back_add, Hc in Hx by lia.
    simpl in Hx. unfold prev_get in Hx.
    destruct (prev !! c i); [by eexists|done]. }
  { by rewrite size_dom. }
  assert (Hper : ∀ m, nth_back (j + m) cur = nth_back (i + m) cur).
  { intros m. by rewrite !nth_back_add, !Hc, Heq by lia. }
  induction (lt_wf k) as [k _ IH].
  destruct (decide (k ≤ S (size prev))%nat) as [Hk|Hk]; [by apply Hdiv|].
  replace k with (j + (k - j))%nat by lia. rewrite Hper. apply IH. lia.
Qed.

End Cycle.

Section Back.

Variable graph : gmap string (list Edge).
Variable start_id : string.

#[local] Abbreviation back := (back graph start_id).

Lemma back_route (prev : gmap string (option string)) (v : string)
    (path : list string) (total : Z) :
  back prev v path total → route graph start_id path total v.
Proof.
  induction 1 as [|v u path total edges e _ _ _ IH Hu He <-].
  - constructor.
  - by eapply route_snoc.
Qed.

(** [prev] determines the path. *)
Lemma back_det (prev : gmap string (option string)) (v : string)
    (p q : list string) (t t' : Z) :
  back prev v p t → back prev v q t' → p = q.
Proof.
  intros Hp. revert q t'.
  induction Hp as [|v u path total edges e Hv Hprev _ IH _ _ _]; intros q t' Hq.
  - inversion Hq; [done|congruence].
  - inversion Hq as [|v' u' path' total' edges' e' _ Hprev' Hq' _ _ _]; subst.
    + done.
    + assert (u' = u) as -> by congruence.
      f_equal. by eapply IH.
Qed.

Lemma back_elem (prev : gmap string (option string)) (v : string)
    (p : list string) (t : Z) (y : string) :
  back prev v p t → y ∈ p →
  ∃ q t', back prev y q t' ∧ (length q ≤ length p)%nat.
Proof.
  induction 1 as [|v u path total edges e Hv Hprev Hb IH Hu He Hto]; intros Hy.
  - apply list_elem_of_singleton in Hy as ->.
    exists [start_id], 0. split; [constructor|done].
  - apply elem_of_app in Hy as [Hy|Hy].
    + destruct (IH Hy) as (q & t' & Hq & Hlen).
      exists q, t'. split; [done|]. rewrite length_app. lia.
    + apply list_elem_of_singleton in Hy as ->.
      exists (path ++ [v]), (total + minutes e). split; [|done].
      by econstructor.
Qed.

Lemma back_NoDup (prev : gmap string (option string)) (v : string)
    (p : list string) (t : Z) :
  back prev v p t → NoDup p.
Proof.
  induction 1 as [|v u path total edges e Hv Hprev Hb IH Hu He Hto].
  - apply NoDup_singleton.
  - apply NoDup_app. split; [done|]. split; [|apply NoDup_singleton].
    intros y Hy ->%list_elem_of_singleton.
    destruct (back_elem prev u path total v Hb Hy) as (q & t' & Hq & Hlen).
    assert (Hfull : back prev v (path ++ [v]) (total + minutes e))
      by (by econstructor).
    rewrite (back_det prev v q (path ++ [v]) t' _ Hq Hfull) in Hlen.
    rewrite length_app in Hlen. simpl in Hlen. lia.
Qed.

Lemma back_dom (prev : gmap string (option string)) (v : string)
    (p : list string) (t : Z) (y : string) :
  is_Some (prev !! start_id) → back prev v p t → y ∈ p → y ∈ dom prev.
Proof.
  intros Hstart.
  induction 1 as [|v u path total edges e Hv Hprev Hb IH Hu He Hto]; intros Hy.
  - apply list_elem_of_singleton in Hy as ->. by apply elem_of_dom.
  - apply elem_of_app in Hy as [Hy|Hy]; [by apply IH|].
    apply list_elem_of_singleton in Hy as ->. apply elem_of_dom. eauto.
Qed.

(** The recorded path is no longer than [prev] has entries. *)
Lemma back_length (prev : gmap string (option string)) (v : string)
    (p : list string) (t : Z) :
  is_Some (prev !! start_id) → back prev v p t → (length p ≤ size prev)%nat.
Proof.
  intros Hstart Hb.
  rewrite <- size_dom, <- (size_list_to_set (C:=gset string) p).
  - apply subseteq_size. intros y Hy. apply elem_of_list_to_set in Hy.
    by eapply back_dom.
  - by eapply back_NoDup.
Qed.

(** An entry written for a station off the path leaves the path. *)
Lemma back_insert (prev : gmap string (option string)) (v : string)
    (p : list string) (t : Z) (w : string) (o : option string) :
  back prev v p t → w ∉ p → back (<[w := o]> prev) v p t.
Proof.
  induction 1 as [|v u path total edges e Hv Hprev Hb IH Hu He Hto]; intros Hw.
  - constructor.
  - rewrite not_elem_of_app in Hw. destruct Hw as [Hw1 Hw2].
    econstructor; eauto.
    rewrite lookup_insert_ne; [done|].
    intros ->. apply Hw2. left.
Qed.

(** The loop that walks [prev] back reads the recorded path, last
    station first. *)
Lemma walk_back_back (prev : gmap string (option string)) (v : string)
    (p : list string) (t : Z) (fuel : nat) (acc : list string) :
  prev !! start_id = Some None → back prev v p t → (length p ≤ fuel)%nat →
  walk_back fuel prev (Some v) acc = Returns (acc ++ reverse p).
Proof.
  intros Hstart Hb. revert fuel acc.
  induction Hb as [|v u path total edges e Hv Hprev Hb IH Hu He Hto];
    intros fuel acc Hlen.
  - destruct fuel as [|fuel]; [simpl in Hlen; lia|].
    rewrite walk_back_Some. unfold prev_get. rewrite Hstart. simpl.
    apply walk_back_None.
  - rewrite length_app in Hlen. simpl in Hlen.
    destruct fuel as [|fuel]; [lia|].
    rewrite walk_back_Some. unfold prev_get. rewrite Hprev. simpl.
    rewrite IH by lia. rewrite reverse_app. simpl.
    by rewrite <- app_assoc.
Qed.

End Back.

(** *** The invariant of the search *)

Section Shortest.

Variable graph : gmap string (list Edge).
Variables start_id goal_id : string.
Hypothesis graph_nonneg : nonneg graph.

#[local] Abbreviation inv := (inv graph start_id).
#[local] Abbreviation relaxed := (relaxed graph).
#[local] Abbreviation relaxing := (relaxing graph start_id).

(** Along a route that ends outside the visited stations, the first
    station that is not visited has a distance no larger than the
    route's minutes up to it. *)
Lemma first_unseen (seen : gset string) (dist : gmap string Z)
    (a : string) (path : list string) (total : Z) (u : string) :
  relaxed seen dist → route graph a path total u →
  ∀ da, dist !! a = Some da → u ∉ seen →
  ∃ y dy, (y ∉ seen) ∧ dist !! y = Some dy ∧ dy ≤ da + total.
Proof.
  intros Hrel Hr.
  induction Hr as [u|u edges e path total v Hu He Hr IH]; intros da Hda Hout.
  - exists u, da. split; [done|]. split; [done|lia].
  - pose proof (graph_nonneg u edges e Hu He) as Hpos.
    pose proof (route_nonneg graph _ _ _ _ graph_nonneg Hr) as Hrest.
    destruct (decide (u ∈ seen)) as [Hin|Hnin].
    + destruct (Hrel u da edges e Hin Hda Hu He) as (dy & Hdy & Hle).
      destruct (IH dy Hdy Hout) as (y & dy' & Hy & Hdy' & Hle').
      exists y, dy'. split; [done|]. split; [done|lia].
    + exists u, da. split; [done|]. split; [done|lia].
Qed.

Lemma relax_relaxing (seen done : gset string) (cur : string) (cur_dist : Z)
    (edges : list Edge) (e : Edge)
    (acc : gmap string Z * gmap string (option string) * list item) :
  cur ∈ seen → done ⊆ seen → 0 ≤ cur_dist →
  graph !! cur = Some edges → e ∈ edges →
  relaxing seen done cur cur_dist acc →
  relaxing seen done cur cur_dist (relax cur cur_dist acc e).
Proof.
  destruct acc as [[dist prev] pq].
  intros Hcur Hdone Hcd Hedges He (Hinv & Hrel & Hdcur & Hmax).
  destruct (relax_cases cur cur_dist dist prev pq e) as [[-> _]|[-> Hlt]].
  { done. }
  simpl in *.
  pose proof (graph_nonneg cur edges e Hedges He) as Hpos.
  set (v := to_id e) in *. set (nd := cur_dist + minutes e) in *.
  assert (Hv : v ∉ seen).
  { intros Hin. destruct (inv_back _ _ _ _ _ _ Hinv v Hin) as (? & dx & Hdx & _).
    specialize (Hmax v dx Hin Hdx). specialize (Hlt dx Hdx). lia. }
  assert (Hne : ∀ x, x ∈ seen → v ≠ x) by (intros x Hx ->; done).
  assert (Hvs : v ≠ start_id).
  { intros Heq. destruct (inv_start _ _ _ _ _ _ Hinv) as [H0 _].
    rewrite <- Heq in H0. specialize (Hlt 0 H0). lia. }
  unfold Routing.relaxing. simpl.
  split; [|split; [|split]].
  - constructor.
    + destruct (inv_start _ _ _ _ _ _ Hinv) as [H0 H1].
      by rewrite !lookup_insert_ne.
    + intros d x [[= -> ->]|Hin]%elem_of_cons.
      * split; [lia|]. exists nd. rewrite lookup_insert_eq. split; [done|lia].
      * destruct (inv_queue _ _ _ _ _ _ Hinv d x Hin) as [H0 (dx & Hdx & Hle)].
        split; [done|]. destruct (decide (v = x)) as [<-|Hvx].
        -- exists nd. rewrite lookup_insert_eq. split; [done|].
           specialize (Hlt dx Hdx). lia.
        -- exists dx. by rewrite lookup_insert_ne.
    + intros u d Hd Hu. destruct (decide (v = u)) as [<-|Hvu].
      * rewrite lookup_insert_eq in Hd. injection Hd as <-. left.
      * rewrite lookup_insert_ne in Hd by done. right.
        by apply (inv_pending _ _ _ _ _ _ Hinv).
    + intros x dx d y Hx Hdx Hin.
      rewrite lookup_insert_ne in Hdx by auto.
      apply elem_of_cons in Hin as [[= -> ->]|Hin].
      * specialize (Hmax x dx Hx Hdx). lia.
      * by eapply (inv_settled _ _ _ _ _ _ Hinv).
    + intros x Hx.
      destruct (inv_back _ _ _ _ _ _ Hinv x Hx) as (path & dx & Hdx & Hb & Hall).
      exists path, dx. rewrite lookup_insert_ne by auto.
      split; [done|]. split; [|done].
      apply back_insert; [done|].
      intros Hin. rewrite Forall_forall in Hall. by apply Hv, Hall.
    + intros u d Hd Hu Hus. destruct (decide (v = u)) as [<-|Hvu].
      * rewrite lookup_insert_eq in Hd. injection Hd as <-.
        exists cur, cur_dist, edges, e. rewrite lookup_insert_eq.
        rewrite lookup_insert_ne by auto. done.
      * rewrite lookup_insert_ne in Hd by done.
        destruct (inv_prev _ _ _ _ _ _ Hinv u d Hd Hu Hus)
          as (u0 & du & es & e0 & Hp & Hu0 & Hdu & Hes & He0 & Hto & Hsum).
        exists u0, du, es, e0. rewrite !lookup_insert_ne by auto. done.
  - intros x dx es e0 Hx Hdx Hes He0.
    rewrite lookup_insert_ne in Hdx by auto.
    destruct (Hrel x dx es e0 Hx Hdx Hes He0) as (dy & Hdy & Hle).
    destruct (decide (v = to_id e0)) as [Heq|Hvy].
    + exists nd. rewrite <- Heq, lookup_insert_eq. split; [done|].
      rewrite <- Heq in Hdy. specialize (Hlt dy Hdy). lia.
    + exists dy. by rewrite lookup_insert_ne.
  - by rewrite lookup_insert_ne by auto.
  - intros x dx Hx Hdx. rewrite lookup_insert_ne in Hdx by auto. by eapply Hmax.
Qed.

Lemma foldl_relax_relaxing (seen done : gset string) (cur : string)
    (cur_dist : Z) (edges l : list Edge)
    (acc : gmap string Z * gmap string (option string) * list item) :
  cur ∈ seen → done ⊆ seen → 0 ≤ cur_dist →
  graph !! cur = Some edges → l ⊆ edges →
  relaxing seen done cur cur_dist acc →
  relaxing seen done cur cur_dist (foldl (relax cur cur_dist) acc l).
Proof.
  intros Hcur Hdone Hcd Hedges. revert acc.
  induction l as [|e l IH]; intros acc Hsub Hacc; [done|].
  change (foldl (relax cur cur_dist) acc (e :: l))
    with (foldl (relax cur cur_dist) (relax cur cur_dist acc e) l).
  apply IH.
  - intros x Hx. apply Hsub. by right.
  - eapply relax_relaxing; eauto. apply Hsub. left.
Qed.

(** Taking the least entry out of the queue. *)
Section Pop.

Variables (seen : gset string) (dist : gmap string Z).
Variables (prev : gmap string (option string)) (pq pq' : list item).
Variables (cur : string) (cur_dist : Z).
Hypothesis Hinv : inv seen dist prev pq.
Hypothesis Hperm : pq ≡ₚ (cur_dist, cur) :: pq'.
Hypothesis Hmin : ∀ y : item, y ∈ pq → cur_dist ≤ y.1.

Lemma popped_in : (cur_dist, cur) ∈ pq.
Proof. rewrite Hperm. left. Qed.

Lemma rest_in (y : item) : y ∈ pq' → y ∈ pq.
Proof. intros Hy. rewrite Hperm. by right. Qed.

(** An entry of a visited station is stale: dropping it changes nothing. *)
Lemma inv_pop_seen : cur ∈ seen → inv seen dist prev pq'.
Proof.
  intros Hcur. destruct Hinv as [Hst Hqu Hpe Hse Hba Hpr].
  constructor; try done.
  - intros d x Hin. apply Hqu. by apply rest_in.
  - intros v d Hd Hv. specialize (Hpe v d Hd Hv).
    rewrite Hperm in Hpe. apply elem_of_cons in Hpe as [[= -> ->]|Hpe]; done.
  - intros x dx d y Hx Hdx Hin. eapply Hse; eauto. by apply rest_in.
Qed.

(** The entry popped for a station not visited yet carries its distance. *)
Lemma popped_dist : cur ∉ seen → dist !! cur = Some cur_dist.
Proof.
  intros Hcur.
  destruct (inv_queue _ _ _ _ _ _ Hinv cur_dist cur popped_in)
    as [_ (dx & Hdx & Hle)].
  pose proof (inv_pending _ _ _ _ _ _ Hinv cur dx Hdx Hcur) as Hin.
  specialize (Hmin _ Hin). simpl in Hmin.
  rewrite Hdx. f_equal. lia.
Qed.

Lemma popped_nonneg : 0 ≤ cur_dist.
Proof. by destruct (inv_queue _ _ _ _ _ _ Hinv cur_dist cur popped_in). Qed.

Lemma popped_max (x : string) (dx : Z) :
  cur ∉ seen → x ∈ {[cur]} ∪ seen → dist !! x = Some dx → dx ≤ cur_dist.
Proof.
  intros Hcur [->%elem_of_singleton|Hx]%elem_of_union Hdx.
  - rewrite (popped_dist Hcur) in Hdx. injection Hdx as <-. lia.
  - eapply (inv_settled _ _ _ _ _ _ Hinv); eauto. apply popped_in.
Qed.

(** No route to the station popped takes fewer minutes. *)
Lemma popped_optimal (path : list string) (total : Z) :
  relaxed seen dist → cur ∉ seen →
  route graph start_id path total cur → cur_dist ≤ total.
Proof.
  intros Hrel Hcur Hr.
  destruct (inv_start _ _ _ _ _ _ Hinv) as [H0 _].
  destruct (first_unseen seen dist _ _ _ _ Hrel Hr 0 H0 Hcur)
    as (y & dy & Hy & Hdy & Hle).
  pose proof (inv_pending _ _ _ _ _ _ Hinv y dy Hdy Hy) as Hin.
  specialize (Hmin _ Hin). simpl in Hmin. lia.
Qed.

Lemma inv_visit : cur ∉ seen → inv ({[cur]} ∪ seen) dist prev pq'.
Proof.
  intros Hcur. pose proof (popped_dist Hcur) as Hdcur.
  destruct Hinv as [Hst Hqu Hpe Hse Hba Hpr].
  constructor.
  - done.
  - intros d x Hin. apply Hqu. by apply rest_in.
  - intros v d Hd Hv. apply not_elem_of_union in Hv as [Hvc Hv].
    specialize (Hpe v d Hd Hv). rewrite Hperm in Hpe.
    apply elem_of_cons in Hpe as [[= -> ->]|Hpe]; [|done].
    exfalso. apply Hvc. by apply elem_of_singleton.
  - intros x dx d y Hx Hdx Hin.
    pose proof (popped_max x dx Hcur Hx Hdx).
    specialize (Hmin _ (rest_in _ Hin)). simpl in Hmin. lia.
  - intros x [->%elem_of_singleton|Hx]%elem_of_union.
    + destruct (decide (cur = start_id)) as [->|Hne].
      * exists [start_id], 0. split; [by destruct Hst|].
        split; [constructor|]. apply Forall_singleton.
        by apply elem_of_union_l, elem_of_singleton.
      * destruct (Hpr cur cur_dist Hdcur Hcur Hne)
          as (u & du & es & e & Hp & Hu & Hdu & Hes & He & Hto & Hsum).
        destruct (Hba u Hu) as (path & du' & Hdu' & Hb & Hall).
        assert (du' = du) as -> by congruence.
        exists (path ++ [cur]), cur_dist. split; [done|]. split.
        -- rewrite Hsum. by econstructor.
        -- apply Forall_app. split.
           ++ eapply Forall_impl; [exact Hall|].
              intros y Hy. by apply elem_of_union_r.
           ++ apply Forall_singleton. by apply elem_of_union_l, elem_of_singleton.
    + destruct (Hba x Hx) as (path & dx & Hdx & Hb & Hall).
      exists path, dx. split; [done|]. split; [done|].
      eapply Forall_impl; [exact Hall|].
      intros y Hy. by apply elem_of_union_r.
  - intros v d Hd Hv Hvs. apply not_elem_of_union in Hv as [_ Hv].
    destruct (Hpr v d Hd Hv Hvs)
      as (u & du & es & e & Hp & Hu & Hdu & Hes & He & Hto & Hsum).
    exists u, du, es, e. split; [done|]. split; [by apply elem_of_union_r|done].
Qed.

End Pop.

Lemma init_inv : loop_inv graph start_id goal_id (init start_id).
Proof using Type.
  split; [|split]; simpl.
  - constructor.
    + by rewrite !lookup_singleton_eq.
    + intros d x [= -> ->]%list_elem_of_singleton.
      split; [lia|]. exists 0. rewrite lookup_singleton_eq. split; [done|lia].
    + intros v d [<- <-]%lookup_singleton_Some _. left.
    + intros x dx d y Hx. by apply elem_of_empty in Hx.
    + intros x Hx. by apply elem_of_empty in Hx.
    + intros v d [<- <-]%lookup_singleton_Some _ Hne. done.
  - intros x dx edges e Hx. by apply elem_of_empty in Hx.
  - apply not_elem_of_empty.
Qed.

(** What holds when the loop has ended. *)
Lemma dijkstra_loop_post (fuel : nat) (st st' : state) :
  loop_inv graph start_id goal_id st →
  dijkstra_loop fuel graph goal_id st = Returns st' →
  post graph start_id goal_id st'.
Proof.
  revert st. induction fuel as [|fuel IH]; intros st (Hinv & Hrel & Hgoal) Hloop;
    [done|].
  simpl in Hloop.
  destruct (heappop (pq st)) as [[[cur_dist cur] pq']|] eqn:Hpop.
  2:{ injection Hloop as <-. apply heappop_None in Hpop.
      assert (Hall : ∀ y dy, dist st !! y = Some dy → y ∈ visited st).
      { intros y dy Hdy. destruct (decide (y ∈ visited st)) as [|Hy]; [done|].
        pose proof (inv_pending _ _ _ _ _ _ Hinv y dy Hdy Hy) as Hin.
        rewrite Hpop in Hin. by apply elem_of_nil in Hin. }
      split; [by destruct (inv_start _ _ _ _ _ _ Hinv)|]. split.
      - intros d Hd. exfalso. apply Hgoal. by eapply Hall.
      - intros _ (path & total & Hr).
        destruct (inv_start _ _ _ _ _ _ Hinv) as [H0 _].
        destruct (first_unseen _ _ _ _ _ _ Hrel Hr 0 H0 Hgoal)
          as (y & dy & Hy & Hdy & _).
        apply Hy. by eapply Hall. }
  apply heappop_Some in Hpop as [Hperm Hmin].
  destruct (decide (cur ∈ visited st)) as [Hseen|Hnew].
  { apply IH in Hloop; [done|]. split; [|done].
    simpl. by eapply inv_pop_seen. }
  pose proof (popped_dist _ _ _ _ _ _ _ Hinv Hperm Hmin Hnew) as Hdcur.
  pose proof (inv_visit _ _ _ _ _ _ _ Hinv Hperm Hmin Hnew) as Hinv'.
  destruct (decide (cur = goal_id)) as [->|Hne].
  { injection Hloop as <-. unfold post. simpl.
    split; [by destruct (inv_start _ _ _ _ _ _ Hinv)|]. split.
    - intros d Hd. assert (d = cur_dist) as -> by congruence. split.
      + destruct (inv_back _ _ _ _ _ _ Hinv' goal_id) as (path & dx & Hdx & Hb & _);
          [by apply elem_of_union_l, elem_of_singleton|].
        assert (dx = cur_dist) as -> by congruence. eauto.
      + intros path total Hr.
        by eapply (popped_optimal _ _ _ _ _ _ Hinv Hmin).
    - intros Hd. congruence. }
  destruct (graph !! cur) as [edges|] eqn:Hedges; [|done].
  pose proof (foldl_relax_relaxing ({[cur]} ∪ visited st) (visited st)
                cur cur_dist edges edges (dist st, prev st, pq')) as Hfold.
  pose proof (foldl_relax_edges cur cur_dist edges (dist st, prev st, pq'))
    as Hdone.
  destruct (foldl (relax cur cur_dist) (dist st, prev st, pq') edges)
    as [[dist' prev'] pq''].
  destruct Hfold as (Hinv'' & Hrel'' & Hdcur'' & _).
  { by apply elem_of_union_l, elem_of_singleton. }
  { apply union_subseteq_r. }
  { exact (popped_nonneg _ _ _ _ _ _ _ Hinv Hperm). }
  { done. }
  { done. }
  { split; [done|]. split; [done|]. split; [done|].
    intros x dx. exact (popped_max _ _ _ _ _ _ _ Hinv Hperm Hmin x dx Hnew). }
  simpl in *. apply IH in Hloop; [done|].
  split; [done|]. split; simpl.
  - intros x dx es e [->%elem_of_singleton|Hx]%elem_of_union Hdx Hes He.
    + assert (es = edges) as -> by congruence.
      assert (dx = cur_dist) as -> by congruence.
      by apply Hdone.
    + by eapply Hrel''.
  - apply not_elem_of_union. split; [|done].
    apply not_elem_of_singleton. congruence.
Qed.

(** After the loop the walk back from a goal with a distance returns,
    and what it returns is the recorded path, reversed. *)
Lemma walk_back_post (st : state) (d : Z) :
  post graph start_id goal_id st → dist st !! goal_id = Some d →
  ∃ path, back graph start_id (prev st) goal_id path d ∧
    walk_back (S (size (prev st))) (prev st) (Some goal_id) []
    = Returns (reverse path).
Proof.
  intros (Hstart & Hsome & _) Hd.
  destruct (Hsome d Hd) as [[path Hb] _].
  exists path. split; [done|].
  rewrite (walk_back_back graph start_id (prev st) goal_id path d); [done..|].
  pose proof (back_length graph start_id (prev st) goal_id path d
                (mk_is_Some _ _ Hstart) Hb). lia.
Qed.

End Shortest.

(** In a network of the data model the finder returns a path whenever
    a route joins the two stations: the loop ends within its bound, no
    lookup raises and the walk back ends. *)
Lemma dijkstra_path_finds (graph : gmap string (list Edge))
    (start_id goal_id : string) :
  closed graph → nonneg graph →
  is_Some (graph !! start_id) → is_Some (graph !! goal_id) →
  reachable graph start_id goal_id →
  ∃ path total,
    dijkstra_path graph start_id goal_id = Returns (Some (path, total)).
Proof.
  intros Hclosed Hpos [es Hs] [eg Hg] Hreach.
  unfold dijkstra_path. rewrite Hs, Hg.
  pose proof (dijkstra_loop_fuel graph goal_id start_id) as Hfuel.
  pose proof (dijkstra_loop_known graph start_id goal_id Hclosed
                (loop_fuel graph) (init start_id)
                (init_known graph start_id (mk_is_Some _ _ Hs))) as Hk.
  destruct (dijkstra_loop (loop_fuel graph) graph goal_id (init start_id))
    as [st| |] eqn:Hloop; [|done..].
  pose proof (dijkstra_loop_post graph start_id goal_id Hpos _ _ _
                (init_inv graph start_id goal_id) Hloop) as Hpost.
  simpl. destruct (dist st !! goal_id) as [d|] eqn:Hd.
  - destruct (walk_back_post graph start_id goal_id st d Hpost Hd)
      as (path & _ & ->).
    simpl. eauto.
  - destruct Hpost as (_ & _ & Hnone). by destruct (Hnone Hd).
Qed.

(** C2. In a network without negative travel times, when the finder
    returns a path and a total, the path is a route of the network from
    the start to the goal, the total is the sum of the minutes of its
    connections (the minutes the analyzer reads off the path where two
    stations are joined by one connection at most), and no route and no
    path between the two stations has a smaller sum. *)
Theorem dijkstra_path_shortest (graph : gmap string (list Edge))
    (start_id goal_id : string) (path : list string) (total : Z) :
  nonneg graph →
  dijkstra_path graph start_id goal_id = Returns (Some (path, total)) →
  route graph start_id path total goal_id ∧
  (∀ path' total', route graph start_id path' total' goal_id → total ≤ total') ∧
  (single_connection graph → path_minutes graph path = Returns total) ∧
  (∀ path' total',
     head path' = Some start_id → last path' = Some goal_id →
     path_minutes graph path' = Returns total' → total ≤ total').
Proof.
  intros Hpos. unfold dijkstra_path.
  destruct (graph !! start_id) as [es|]; [|done].
  destruct (graph !! goal_id) as [eg|]; [|done].
  destruct (dijkstra_loop (loop_fuel graph) graph goal_id (init start_id))
    as [st| |] eqn:Hloop; [|done..].
  pose proof (dijkstra_loop_post graph start_id goal_id Hpos _ _ _
                (init_inv graph start_id goal_id) Hloop) as Hpost.
  simpl. destruct (dist st !! goal_id) as [d|] eqn:Hd; [|done].
  destruct (walk_back_post graph start_id goal_id st d Hpost Hd)
    as (p & Hb & ->).
  simpl. rewrite reverse_involutive. intros [= <- <-].
  apply back_route in Hb.
  destruct Hpost as (_ & Hsome & _). destruct (Hsome d Hd) as [_ Hbest].
  split; [done|]. split; [done|]. split.
  - intros Hone. by eapply route_path_minutes.
  - intros path' total' Hhead Hlast Hm. eapply Hbest.
    by apply path_minutes_route.
Qed.

Lemma demo_graph_single_connection : single_connection demo_graph.
Proof.
  intros u edges Hu. unfold demo_graph in Hu.
  apply elem_of_list_to_map_2 in Hu.
  repeat (apply elem_of_cons in Hu as [[= -> ->]|Hu]);
    try (by apply elem_of_nil in Hu);
    (refine (bool_decide_unpack _ _); vm_compute; exact I).
Qed.

Lemma dijkstra_path_shortest_witness :
  nonneg demo_graph ∧
  dijkstra_path demo_graph "A" "D"
    = Returns (Some (["A"; "C"; "B"; "D"]%string, 8)) ∧
  route demo_graph "A" ["A"; "C"; "B"; "D"]%string 8 "D" ∧
  (∀ path' total', route demo_graph "A" path' total' "D" → 8 ≤ total') ∧
  path_minutes demo_graph ["A"; "C"; "B"; "D"]%string = Returns 8 ∧
  8 ≤ 9.
Proof.
  assert (Hrun : dijkstra_path demo_graph "A" "D"
                 = Returns (Some (["A"; "C"; "B"; "D"]%string, 8)))
    by (vm_compute; reflexivity).
  destruct (dijkstra_path_shortest demo_graph "A" "D" _ _ demo_graph_nonneg Hrun)
    as (Hroute & Hbest & Hsum & Hpaths).
  split; [exact demo_graph_nonneg|]. split; [exact Hrun|].
  split; [exact Hroute|]. split; [exact Hbest|].
  split; [exact (Hsum demo_graph_single_connection)|].
  apply (Hpaths ["A"; "B"; "D"]%string 9); by vm_compute.
Defined.

(** Where connections run in parallel the route takes the quickest one,
    whereas [edge_info] finds the first: the analyzer then reads other
    minutes off the path than the finder returns. *)
Lemma parallel_connections_quickest :
  dijkstra_path parallel_graph "A" "B" = Returns (Some (["A"; "B"]%string, 5)) ∧
  path_minutes parallel_graph ["A"; "B"]%string = Returns 10.
Proof. split; by vm_compute. Qed.

(** *** Results without a route *)

(** C8. When the start or the goal is not a station of the network the
    finder returns the no-path result [None]. In a network whose
    connections all lead to stations, a goal that no route reaches from
    the start gives the same result: the search ends, no lookup fails,
    and the goal is absent from the distances; and whenever the search
    ends with the goal absent from the distances, [None] is returned. *)
Theorem no_path_result (graph : gmap string (list Edge))
    (start_id goal_id : string) :
  (graph !! start_id = None ∨ graph !! goal_id = None →
     dijkstra_path graph start_id goal_id = Returns None) ∧
  (closed graph → is_Some (graph !! start_id) → is_Some (graph !! goal_id) →
     ¬ reachable graph start_id goal_id →
     dijkstra_path graph start_id goal_id = Returns None) ∧
  (∀ st, is_Some (graph !! start_id) → is_Some (graph !! goal_id) →
     dijkstra_loop (loop_fuel graph) graph goal_id (init start_id) = Returns st →
     dist st !! goal_id = None →
     dijkstra_path graph start_id goal_id = Returns None).
Proof.
  split; [|split].
  - unfold dijkstra_path. intros [-> | ->]; [done|]. by destruct (graph !! start_id).
  - intros Hclosed [es Hs] [eg Hg] Hunreach.
    unfold dijkstra_path. rewrite Hs, Hg.
    pose proof (dijkstra_loop_fuel graph goal_id start_id) as Hfuel.
    pose proof (dijkstra_loop_known graph start_id goal_id Hclosed
                  (loop_fuel graph) (init start_id)
                  (init_known graph start_id (mk_is_Some _ _ Hs))) as Hk.
    destruct (dijkstra_loop (loop_fuel graph) graph goal_id (init start_id))
      as [st| |]; [|done..].
    simpl. destruct (dist st !! goal_id) as [d|] eqn:Hd; [|done].
    destruct Hk as [Hk _]. destruct (Hk goal_id d Hd) as [_ Hreach]. done.
  - intros st [es Hs] [eg Hg] Hloop Hd.
    unfold dijkstra_path. rewrite Hs, Hg, Hloop. simpl. by rewrite Hd.
Qed.

Lemma no_path_result_witness :
  dijkstra_path demo_graph "Q" "A" = Returns None ∧
  (closed demo_graph ∧ ¬ reachable demo_graph "A" "Z" ∧
   dijkstra_path demo_graph "A" "Z" = Returns None) ∧
  dijkstra_path demo_graph "C" "Z" = Returns None.
Proof.
  destruct (no_path_result demo_graph "Q" "A") as (Hunknown & _ & _).
  destruct (no_path_result demo_graph "A" "Z") as (_ & Hunreach & _).
  destruct (no_path_result demo_graph "C" "Z") as (_ & _ & Habsent).
  split; [|split].
  - apply Hunknown. left. reflexivity.
  - split; [exact demo_graph_closed|]. split; [exact demo_graph_Z_unreachable|].
    apply Hunreach.
    + exact demo_graph_closed.
    + eexists. vm_compute. reflexivity.
    + eexists. vm_compute. reflexivity.
    + exact demo_graph_Z_unreachable.
  - eapply Habsent.
    + eexists. vm_compute. reflexivity.
    + eexists. vm_compute. reflexivity.
    + vm_compute. reflexivity.
    + vm_compute. reflexivity.
Defined.

(** C9. For a station [s] of the network, the finder called with
    [start = goal = s] returns the path [[s]] and 0 minutes. *)
Theorem same_station_path (graph : gmap string (list Edge)) (s : string) :
  is_Some (graph !! s) →
  dijkstra_path graph s s = Returns (Some ([s], 0)).
Proof.
  intros [es Hs]. unfold dijkstra_path, loop_fuel. rewrite Hs.
  generalize (S (edge_count graph)). intros fuel. simpl.
  destruct (decide (s ∈ (∅ : gset string))) as [Hin|_];
    [by apply elem_of_empty in Hin|].
  destruct (decide (s = s)) as [_|Hne]; [|done].
  simpl. rewrite lookup_singleton_eq. simpl.
  rewrite walk_back_Some. unfold prev_get. rewrite lookup_singleton_eq. simpl.
  by rewrite walk_back_None.
Qed.

Lemma same_station_path_witness :
  is_Some (demo_graph !! "C"%string) ∧
  dijkstra_path demo_graph "C" "C" = Returns (Some (["C"%string], 0)).
Proof.
  assert (Hin : is_Some (demo_graph !! "C"%string)).
  { eexists. vm_compute. reflexivity. }
  split; [exact Hin|].
  apply (same_station_path demo_graph "C" Hin).
Defined.

End RoutingFacts.

(** ** Lines and transfers *)

Module LinesFacts.
Import PathAnalyzer Lines.

(** *** One line for each segment *)

Lemma segment_lines_loop_edges (graph : gmap string (list Edge))
    (pairs : list (string * string)) (lines : list string) :
  segment_lines_loop graph pairs lines
  = es ← segment_edges graph pairs; Returns (lines ++ (line <$> es)).
Proof.
  revert lines. induction pairs as [|[a b] pairs IH]; intros lines; simpl.
  - by rewrite app_nil_r.
  - destruct (edge_info graph a b) as [e| |]; simpl; [|done..].
    rewrite IH. destruct (segment_edges graph pairs) as [es| |]; simpl; [|done..].
    by rewrite <- app_assoc.
Qed.

Lemma segment_edges_lookup (graph : gmap string (list Edge))
    (pairs : list (string * string)) (es : list Edge) :
  segment_edges graph pairs = Returns es →
  length es = length pairs ∧
  ∀ i a b, pairs !! i = Some (a, b) →
    ∃ e, edge_info graph a b = Returns e ∧ es !! i = Some e.
Proof.
  revert es. induction pairs as [|[a b] pairs IH]; intros es; simpl.
  - intros [= <-]. split; [done|]. intros i a b Hi. by rewrite lookup_nil in Hi.
  - destruct (edge_info graph a b) as [e| |] eqn:He; simpl; [|done..].
    destruct (segment_edges graph pairs) as [es'| |]; simpl; [|done..].
    intros [= <-]. destruct (IH es' eq_refl) as [Hlen Hall].
    split; [simpl; by rewrite Hlen|].
    intros [|i] a' b' Hi; simpl in *.
    + injection Hi as <- <-. eauto.
    + by apply Hall.
Qed.

Lemma segments_length (path : list string) :
  length (segments path) = pred (length path).
Proof.
  unfold segments. rewrite length_zip.
  destruct path as [|x path]; [done|]. simpl length. apply Nat.min_r. lia.
Qed.

Lemma segments_lookup (path : list string) (i : nat) (a b : string) :
  segments path !! i = Some (a, b) ↔ path !! i = Some a ∧ path !! S i = Some b.
Proof.
  unfold segments. rewrite lookup_zip_with_Some, lookup_tail. split.
  - intros (x & y & [= <- <-] & Hx & Hy). done.
  - intros [Hx Hy]. by exists a, b.
Qed.

Lemma segment_lines_cases (graph : gmap string (list Edge))
    (path lines : list string) :
  segment_lines graph path = Returns lines →
  length lines = pred (length path) ∧
  ∀ i a b, path !! i = Some a → path !! S i = Some b →
    ∃ e, edge_info graph a b = Returns e ∧ lines !! i = Some (line e).
Proof.
  unfold segment_lines. rewrite segment_lines_loop_edges.
  destruct (segment_edges graph (segments path)) as [es| |] eqn:Hes;
    simpl; [|done..].
  intros [= <-].
  destruct (segment_edges_lookup _ _ _ Hes) as [Hlen Hall].
  split; [by rewrite length_fmap, Hlen, segments_length|].
  intros i a b Ha Hb.
  destruct (Hall i a b) as (e & He & Hi); [by apply segments_lookup|].
  exists e. split; [done|]. by rewrite list_lookup_fmap, Hi.
Qed.

(** X1. When [segment_lines] returns, it returns one line for each
    segment of the path, the line of the connection that [edge_info]
    finds for it. *)
Theorem segment_lines_spec (graph : gmap string (list Edge))
    (path lines : list string) :
  segment_lines graph path = Returns lines →
  length lines = pred (length path) ∧
  ∀ i a b, path !! i = Some a → path !! S i = Some b →
    ∃ e, edge_info graph a b = Returns e ∧ lines !! i = Some (line e).
Proof. apply segment_lines_cases. Qed.

Lemma segment_lines_spec_witness :
  segment_lines Routing.demo_graph ["A"; "C"; "B"; "D"]%string
    = Returns ["R5"; "R5"; "Expo"]%string ∧
  length ["R5"; "R5"; "Expo"]%string
    = pred (length ["A"; "C"; "B"; "D"]%string).
Proof.
  assert (Hrun : segment_lines Routing.demo_graph ["A"; "C"; "B"; "D"]%string
                 = Returns ["R5"; "R5"; "Expo"]%string) by reflexivity.
  split; [exact Hrun|].
  exact (proj1 (segment_lines_spec _ _ _ Hrun)).
Defined.

(** *** Consecutive duplicates *)

Lemma unique_step_last (out : list string) (ln : string) :
  last (unique_step out ln) = Some ln.
Proof.
  unfold unique_step. destruct (decide (last out = Some ln)); [done|].
  apply last_snoc.
Qed.

Lemma unique_step_nonempty (out : list string) (ln : string) :
  out ≠ [] → unique_step out ln ≠ [].
Proof.
  unfold unique_step. destruct (decide (last out = Some ln)); [done|].
  intros _ H. by apply app_nil in H as [_ [=]].
Qed.

Lemma foldl_unique_nonempty (out rest : list string) :
  out ≠ [] → foldl unique_step out rest ≠ [].
Proof.
  revert out. induction rest as [|x rest IH]; intros out Hne; [done|].
  simpl. by apply IH, unique_step_nonempty.
Qed.

Lemma foldl_unique_last (out rest : list string) :
  out ≠ [] → last (foldl unique_step out rest) = last (out ++ rest).
Proof.
  revert out. induction rest as [|x rest IH]; intros out Hne; simpl.
  - by rewrite app_nil_r.
  - rewrite IH by by apply unique_step_nonempty.
    destruct rest as [|y rest].
    + rewrite app_nil_r, unique_step_last. by rewrite last_snoc.
    + rewrite !last_app, last_cons_cons.
      destruct (last (y :: rest)) eqn:Hl; [done|]. by apply last_None in Hl.
Qed.

Lemma foldl_unique_head (out rest : list string) :
  out ≠ [] → head (foldl unique_step out rest) = head out.
Proof.
  revert out. induction rest as [|x rest IH]; intros out Hne; [done|].
  simpl. rewrite IH by by apply unique_step_nonempty.
  unfold unique_step. destruct (decide (last out = Some x)); [done|].
  by destruct out.
Qed.

Lemma unique_lines_snoc (lines : list string) (ln : string) :
  lines ≠ [] →
  unique_lines_in_order (lines ++ [ln])
  = if decide (last lines = Some ln) then unique_lines_in_order lines
    else unique_lines_in_order lines ++ [ln].
Proof.
  destruct lines as [|first rest]; [done|]. intros _. simpl.
  rewrite foldl_app. simpl. unfold unique_step at 1.
  rewrite foldl_unique_last by done.
  change (first :: rest) with ([first] ++ rest). done.
Qed.

Lemma no_repeat_snoc (out : list string) (x : string) :
  no_repeat out → last out ≠ Some x → no_repeat (out ++ [x]).
Proof.
  intros Hout Hlast i a b Ha Hb.
  destruct (decide (S i < length out)%nat) as [Hlt|Hge].
  - rewrite lookup_app_l in Ha by lia. rewrite lookup_app_l in Hb by lia.
    by eapply Hout.
  - assert (S i = length out) as Hi.
    { apply lookup_lt_Some in Hb. rewrite length_app in Hb. simpl in Hb. lia. }
    rewrite lookup_app_l in Ha by lia.
    rewrite lookup_app_r in Hb by lia.
    replace (S i - length out)%nat with O in Hb by lia.
    injection Hb as <-. intros ->. apply Hlast.
    rewrite last_lookup. by replace (pred (length out)) with i by lia.
Qed.

Lemma no_repeat_app_l (l k : list string) : no_repeat (l ++ k) → no_repeat l.
Proof.
  intros H i x y Hx Hy. apply (H i).
  - by apply lookup_app_l_Some.
  - by apply lookup_app_l_Some.
Qed.

Lemma foldl_unique_no_repeat (out rest : list string) :
  no_repeat out → no_repeat (foldl unique_step out rest).
Proof.
  revert out. induction rest as [|x rest IH]; intros out Hout; [done|].
  simpl. apply IH. unfold unique_step.
  destruct (decide (last out = Some x)); [done|]. by apply no_repeat_snoc.
Qed.

Lemma foldl_unique_fixed (out rest : list string) :
  out ≠ [] → no_repeat (out ++ rest) → foldl unique_step out rest = out ++ rest.
Proof.
  revert out. induction rest as [|x rest IH]; intros out Hne Hall; simpl.
  - by rewrite app_nil_r.
  - assert (Hlast : last out ≠ Some x).
    { rewrite last_lookup. intros Hl.
      apply (Hall (pred (length out)) x x).
      - by apply lookup_app_l_Some.
      - destruct out as [|o out]; [done|].
        rewrite lookup_app_r by (simpl; lia).
        by replace (S (pred (length (o :: out))) - length (o :: out))%nat
          with O by (simpl; lia).
      - done. }
    unfold unique_step. rewrite decide_False by done.
    rewrite IH.
    + by rewrite <- app_assoc.
    + intros H. by apply app_nil in H as [_ [=]].
    + by rewrite <- app_assoc.
Qed.

Lemma foldl_unique_sublist (out rest : list string) :
  foldl unique_step out rest `sublist_of` out ++ rest.
Proof.
  revert out. induction rest as [|x rest IH]; intros out; simpl.
  - by rewrite app_nil_r.
  - etrans; [apply IH|]. unfold unique_step.
    destruct (decide (last out = Some x)).
    + apply sublist_app; [done|]. by apply sublist_cons.
    + by rewrite <- app_assoc.
Qed.

Lemma foldl_unique_elem (out rest : list string) (x : string) :
  x ∈ out ++ rest → x ∈ foldl unique_step out rest.
Proof.
  revert out. induction rest as [|y rest IH]; intros out Hx; simpl.
  - by rewrite app_nil_r in Hx.
  - apply IH. unfold unique_step.
    apply elem_of_app in Hx as [Hx|Hx].
    + apply elem_of_app. left.
      destruct (decide (last out = Some y)); [done|].
      apply elem_of_app. by left.
    + apply elem_of_cons in Hx as [->|Hx]; [|apply elem_of_app; by right].
      apply elem_of_app. left.
      destruct (decide (last out = Some y)) as [Hl|Hl].
      * rewrite last_lookup in Hl. by eapply list_elem_of_lookup_2.
      * apply elem_of_app. right. left.
Qed.

Lemma no_repeat_singleton (x : string) : no_repeat [x].
Proof. intros i a b Ha Hb. by destruct i. Qed.

(** X2. The result of [unique_lines_in_order] has no two equal
    neighbours, begins and ends as the input does, lists the input's
    lines in the input's order, and drops no line altogether. *)
Theorem unique_lines_in_order_spec (lines : list string) :
  no_repeat (unique_lines_in_order lines) ∧
  head (unique_lines_in_order lines) = head lines ∧
  last (unique_lines_in_order lines) = last lines ∧
  unique_lines_in_order lines `sublist_of` lines ∧
  (∀ ln, ln ∈ unique_lines_in_order lines ↔ ln ∈ lines).
Proof.
  destruct lines as [|first rest]; simpl.
  { split; [by intros [|?] ???|]. done. }
  assert (Hne : [first] ≠ []) by done.
  assert (Hsub := foldl_unique_sublist [first] rest).
  split; [apply foldl_unique_no_repeat, no_repeat_singleton|].
  split; [by rewrite foldl_unique_head|].
  split; [by rewrite foldl_unique_last|].
  split; [done|].
  intros ln. split.
  - intros Hin. by eapply elem_of_sublist.
  - apply (foldl_unique_elem [first] rest).
Qed.

(** X3. A list without equal neighbours comes back as it is, and only
    such lists do; so compressing twice is compressing once. *)
Theorem unique_lines_in_order_fixed (lines : list string) :
  (unique_lines_in_order lines = lines ↔ no_repeat lines) ∧
  unique_lines_in_order (unique_lines_in_order lines)
  = unique_lines_in_order lines.
Proof.
  assert (Hfix : ∀ l, no_repeat l → unique_lines_in_order l = l).
  { intros [|first rest] Hl; [done|]. simpl.
    by apply (foldl_unique_fixed [first] rest). }
  assert (Hnr : ∀ l, no_repeat (unique_lines_in_order l)).
  { intros [|first rest]; simpl; [by intros [|?] ???|].
    apply foldl_unique_no_repeat, no_repeat_singleton. }
  split; [split|].
  - intros <-. apply Hnr.
  - apply Hfix.
  - apply Hfix, Hnr.
Qed.

(** *** Transfers *)

Lemma foldl_transfer_step_ext (path lines : list string) (x : string)
    (idx : list nat) (acc : option (list string)) :
  Forall (λ i, i < length lines)%nat idx →
  foldl (transfer_step path (lines ++ [x])) acc idx
  = foldl (transfer_step path lines) acc idx.
Proof.
  revert acc. induction idx as [|i idx IH]; intros acc Hall; [done|].
  apply Forall_cons in Hall as [Hi Hall]. simpl. rewrite IH by done.
  f_equal. unfold transfer_step.
  by rewrite !(lookup_app_l lines [x]) by lia.
Qed.

Lemma transfer_stations_snoc (path lines : list string) (x : string) :
  lines ≠ [] →
  transfer_stations path (lines ++ [x])
  = transfer_step path (lines ++ [x]) (transfer_stations path lines)
      (length lines).
Proof.
  intros Hne. unfold transfer_stations.
  assert (length lines ≠ 0)%nat by (by destruct lines).
  rewrite length_app. simpl.
  replace (length lines + 1 - 1)%nat with (S (length lines - 1)) by lia.
  rewrite seq_S, foldl_app. simpl.
  replace (1 + (length lines - 1))%nat with (length lines) by lia.
  f_equal.
  - apply foldl_transfer_step_ext.
    apply Forall_forall. intros i Hi%elem_of_seq. lia.
  - lia.
Qed.

Lemma unique_lines_nonempty (lines : list string) :
  lines ≠ [] → (length (unique_lines_in_order lines) ≠ 0)%nat.
Proof.
  destruct lines as [|first rest]; [done|]. intros _ Hlen. simpl in Hlen.
  apply length_zero_iff_nil in Hlen.
  by apply (foldl_unique_nonempty [first] rest).
Qed.

Lemma drop_take_S (path : list string) (n : nat) :
  drop 1 (take n path) `sublist_of` drop 1 (take (S n) path).
Proof.
  destruct (path !! n) as [s|] eqn:Hs.
  - rewrite (take_S_r _ _ _ Hs), drop_app. by apply sublist_inserts_r.
  - apply lookup_ge_None in Hs. by rewrite !take_ge by lia.
Qed.

(** What [transfer_stations] does, by cases on its result. *)
Lemma transfer_stations_cases (path lines : list string) :
  match transfer_stations path lines with
  | Some ts =>
      length ts = pred (length (unique_lines_in_order lines)) ∧
      ts `sublist_of` drop 1 (take (length lines) path) ∧
      ∀ i, (1 ≤ i < length lines)%nat →
           lines !! i ≠ lines !! (i - 1)%nat → (i < length path)%nat
  | None =>
      ∃ i, (1 ≤ i < length lines)%nat ∧ (length path ≤ i)%nat ∧
           lines !! i ≠ lines !! (i - 1)%nat
  end.
Proof.
  induction lines as [|x lines IH] using rev_ind.
  { simpl. split; [done|]. split; [apply sublist_nil_l|]. intros i Hi. simpl in Hi. lia. }
  destruct (decide (lines = [])) as [->|Hne].
  { simpl. split; [done|]. split; [apply sublist_nil_l|]. intros i Hi. simpl in Hi. lia. }
  assert (Hlen : (length lines ≠ 0)%nat) by (by destruct lines).
  rewrite transfer_stations_snoc by done.
  assert (Hx : (lines ++ [x]) !! length lines = Some x).
  { by rewrite lookup_app_r, Nat.sub_diag by lia. }
  assert (Hprev : (lines ++ [x]) !! (length lines - 1)%nat = last lines).
  { rewrite lookup_app_l by lia. by rewrite last_lookup, Nat.sub_1_r. }
  assert (Hold : ∀ i, (i < length lines)%nat → (1 ≤ i)%nat →
            (lines ++ [x]) !! i = lines !! i ∧
            (lines ++ [x]) !! (i - 1)%nat = lines !! (i - 1)%nat).
  { intros i Hi _. by rewrite !lookup_app_l by lia. }
  rewrite length_app. simpl length.
  replace (length lines + 1)%nat with (S (length lines)) by lia.
  destruct (transfer_stations path lines) as [ts|]; simpl.
  2:{ destruct IH as (i & Hi & Hpath & Hch). exists i.
      split; [lia|]. split; [done|].
      destruct (Hold i) as [-> ->]; [lia..|done]. }
  destruct IH as (Hts & Hsub & Hrange).
  rewrite Hx, Hprev, (unique_lines_snoc lines x Hne).
  destruct (decide (Some x ≠ last lines)) as [Hch|Hsame].
  - rewrite decide_False by done.
    destruct (path !! length lines) as [s|] eqn:Hs; simpl.
    + split; [|split].
      * rewrite !length_app. simpl.
        pose proof (unique_lines_nonempty lines Hne). lia.
      * rewrite (take_S_r _ _ _ Hs), drop_app_le.
        -- apply sublist_app; [done|]. by apply sublist_skip.
        -- rewrite length_take. apply lookup_lt_Some in Hs. lia.
      * intros i Hi Hdiff.
        destruct (decide (i = length lines)) as [->|Hne'].
        -- by apply lookup_lt_Some in Hs.
        -- destruct (Hold i) as [Ha Hb]; [lia..|].
           rewrite Ha, Hb in Hdiff. apply Hrange; [lia|done].
    + exists (length lines). split; [lia|]. split.
      * by apply lookup_ge_None.
      * by rewrite Hx, Hprev.
  - apply dec_stable in Hsame. rewrite decide_True by done.
    split; [done|]. split.
    + etrans; [exact Hsub|]. apply drop_take_S.
    + intros i Hi Hdiff.
      destruct (decide (i = length lines)) as [->|Hne'].
      * rewrite Hx, Hprev in Hdiff. done.
      * destruct (Hold i) as [Ha Hb]; [lia..|].
        rewrite Ha, Hb in Hdiff. apply Hrange; [lia|done].
Qed.



(** X5. [transfer_stations] fails with [IndexError] exactly when the
    line changes at an index that the path does not have. *)
Theorem transfer_stations_index_error (path lines : list string) :
  transfer_stations path lines = None ↔
  ∃ i, (1 ≤ i < length lines)%nat ∧ (length path ≤ i)%nat ∧
       lines !! i ≠ lines !! (i - 1)%nat.
Proof.
  pose proof (transfer_stations_cases path lines) as H.
  destruct (transfer_stations path lines) as [ts|]; split; try done.
  intros (i & Hi & Hpath & Hch). destruct H as (_ & _ & Hrange).
  specialize (Hrange i Hi Hch). lia.
Qed.



End LinesFacts.

(** ** Zones crossed *)

Module ZonesFacts.
Import Zones.

Lemma foldl_max_spec (z : Z) (rest : list Z) :
  foldl Z.max z rest ∈ z :: rest ∧ ∀ y, y ∈ z :: rest → y ≤ foldl Z.max z rest.
Proof.
  revert z. induction rest as [|x rest IH]; intros z; simpl.
  - split; [left|]. intros y ->%list_elem_of_singleton. lia.
  - destruct (IH (Z.max z x)) as [Hin Hle]. split.
    + apply elem_of_cons in Hin as [Heq|Hin]; [|by do 2 right].
      rewrite Heq. destruct (Z.max_spec z x) as [[_ ->]|[_ ->]];
        [right; left | left].
    + intros y Hy.
      pose proof (Hle (Z.max z x) (list_elem_of_here _ _)).
      apply elem_of_cons in Hy as [->|Hy]; [lia|].
      apply elem_of_cons in Hy as [->|Hy]; [lia|].
      apply Hle. by right.
Qed.

Lemma foldl_min_spec (z : Z) (rest : list Z) :
  foldl Z.min z rest ∈ z :: rest ∧ ∀ y, y ∈ z :: rest → foldl Z.min z rest ≤ y.
Proof.
  revert z. induction rest as [|x rest IH]; intros z; simpl.
  - split; [left|]. intros y ->%list_elem_of_singleton. lia.
  - destruct (IH (Z.min z x)) as [Hin Hle]. split.
    + apply elem_of_cons in Hin as [Heq|Hin]; [|by do 2 right].
      rewrite Heq. destruct (Z.min_spec z x) as [[_ ->]|[_ ->]];
        [left | right; left].
    + intros y Hy.
      pose proof (Hle (Z.min z x) (list_elem_of_here _ _)).
      apply elem_of_cons in Hy as [->|Hy]; [lia|].
      apply elem_of_cons in Hy as [->|Hy]; [lia|].
      apply Hle. by right.
Qed.

(** The zones are read for every station of the path, or the first
    missing station raises. *)
Lemma zones_of_cases (stations : gmap string Station) (path : list string) :
  (∃ zs, zones_of stations path = Returns zs ∧
         Forall2 (λ sid z, ∃ st, stations !! sid = Some st ∧ zone st = z) path zs) ∨
  (zones_of stations path = Raises KeyError ∧
   ∃ sid, sid ∈ path ∧ stations !! sid = None).
Proof.
  induction path as [|sid path IH]; simpl.
  - left. exists []. split; [done|]. constructor.
  - destruct (stations !! sid) as [st|] eqn:Hst.
    + destruct IH as [(zs & -> & Hall)|(-> & sid' & Hin & Hnone)]; simpl.
      * left. exists (zone st :: zs). split; [done|]. constructor; eauto.
      * right. split; [done|]. exists sid'. split; [by right|done].
    + right. split; [done|]. exists sid. split; [left|done].
Qed.

Lemma zones_crossed_bounds (stations : gmap string Station)
    (path : list string) (n : Z) :
  zones_crossed stations path = Returns n →
  1 ≤ n ∧
  ∃ hi lo st_hi st_lo,
    hi ∈ path ∧ lo ∈ path ∧
    stations !! hi = Some st_hi ∧ stations !! lo = Some st_lo ∧
    n = zone st_hi - zone st_lo + 1 ∧
    ∀ sid, sid ∈ path →
      ∃ st, stations !! sid = Some st ∧ zone st_lo ≤ zone st ≤ zone st_hi.
Proof.
  unfold zones_crossed.
  destruct (zones_of_cases stations path)
    as [(zs & -> & Hall)|(-> & _)]; simpl; [|done].
  destruct zs as [|z rest]; simpl; [done|]. intros [= <-].
  destruct (foldl_max_spec z rest) as [Hmax_in Hmax].
  destruct (foldl_min_spec z rest) as [Hmin_in Hmin].
  assert (Hzone : ∀ y, y ∈ z :: rest →
            ∃ sid st, sid ∈ path ∧ stations !! sid = Some st ∧ zone st = y).
  { intros y Hy. apply list_elem_of_lookup in Hy as [i Hi].
    destruct (Forall2_lookup_r _ _ _ _ _ Hall Hi) as (sid & Hsid & st & Hst & Hz).
    exists sid, st. split; [by eapply list_elem_of_lookup_2|done]. }
  destruct (Hzone _ Hmax_in) as (hi & st_hi & Hhi & Hsthi & Hzhi).
  destruct (Hzone _ Hmin_in) as (lo & st_lo & Hlo & Hstlo & Hzlo).
  split.
  - specialize (Hmin _ Hmax_in). lia.
  - exists hi, lo, st_hi, st_lo. rewrite Hzhi, Hzlo.
    do 5 (split; [done|]).
    intros sid Hsid. apply list_elem_of_lookup in Hsid as [i Hi].
    destruct (Forall2_lookup_l _ _ _ _ _ Hall Hi) as (y & Hy & st & Hst & Hz).
    exists st. split; [done|]. apply list_elem_of_lookup_2 in Hy.
    specialize (Hmax _ Hy). specialize (Hmin _ Hy). lia.
Qed.

(** X7. When [zones_crossed] returns, it returns the span between the
    highest and the lowest zone of a station of the path, counted
    inclusively: never less than 1. *)
Theorem zones_crossed_span (stations : gmap string Station)
    (path : list string) (n : Z) :
  zones_crossed stations path = Returns n →
  1 ≤ n ∧
  ∃ hi lo st_hi st_lo,
    hi ∈ path ∧ lo ∈ path ∧
    stations !! hi = Some st_hi ∧ stations !! lo = Some st_lo ∧
    n = zone st_hi - zone st_lo + 1 ∧
    ∀ sid, sid ∈ path →
      ∃ st, stations !! sid = Some st ∧ zone st_lo ≤ zone st ≤ zone st_hi.
Proof. apply zones_crossed_bounds. Qed.

Lemma zones_crossed_span_witness :
  zones_crossed demo_stations ["A"; "C"; "B"; "D"]%string = Returns 3 ∧ 1 ≤ 3.
Proof.
  assert (Hrun : zones_crossed demo_stations ["A"; "C"; "B"; "D"]%string
                 = Returns 3) by reflexivity.
  split; [exact Hrun|].
  exact (proj1 (zones_crossed_span _ _ _ Hrun)).
Defined.

Lemma zones_crossed_outcome (stations : gmap string Station)
    (path : list string) :
  (zones_crossed stations path = Raises ValueError ↔ path = []) ∧
  (zones_crossed stations path = Raises KeyError ↔
     ∃ sid, sid ∈ path ∧ stations !! sid = None) ∧
  ((∃ n, zones_crossed stations path = Returns n) ↔
     path ≠ [] ∧ ∀ sid, sid ∈ path → is_Some (stations !! sid)).
Proof.
  unfold zones_crossed.
  destruct (zones_of_cases stations path)
    as [(zs & -> & Hall)|(-> & sid & Hin & Hnone)]; simpl.
  - assert (Hknown : ∀ sid, sid ∈ path → is_Some (stations !! sid)).
    { intros sid [i Hi]%list_elem_of_lookup.
      destruct (Forall2_lookup_l _ _ _ _ _ Hall Hi) as (? & _ & st & Hst & _).
      eauto. }
    assert (Hnot : ¬ ∃ sid, sid ∈ path ∧ stations !! sid = None).
    { intros (sid & Hin & Hnone). destruct (Hknown sid Hin) as [? ?]. congruence. }
    destruct Hall as [|sid z path zs _ Hall]; simpl.
    + split; [done|]. split; [by split|].
      split; [by intros [? [=]]|by intros [? _]].
    + split; [by split|]. split; [by split|].
      split; [intros _; by split|eauto].
  - split; [split; [done|]|].
    { intros ->. by apply elem_of_nil in Hin. }
    split; [split; eauto|].
    split; [by intros [? [=]]|].
    intros [_ Hknown]. destruct (Hknown sid Hin) as [? ?]. congruence.
Qed.

(** X8. [zones_crossed] raises [ValueError] on the empty path and on no
    other, [KeyError] exactly when a station of the path is not in
    [stations], and returns otherwise. *)
Theorem zones_crossed_errors (stations : gmap string Station)
    (path : list string) :
  (zones_crossed stations path = Raises ValueError ↔ path = []) ∧
  (zones_crossed stations path = Raises KeyError ↔
     ∃ sid, sid ∈ path ∧ stations !! sid = None) ∧
  ((∃ n, zones_crossed stations path = Returns n) ↔
     path ≠ [] ∧ ∀ sid, sid ∈ path → is_Some (stations !! sid)).
Proof. apply zones_crossed_outcome. Qed.

(** X9. A path crosses one zone exactly when its stations all lie in the
    same zone. *)
Theorem zones_crossed_one (stations : gmap string Station)
    (path : list string) (n : Z) :
  zones_crossed stations path = Returns n →
  (n = 1 ↔ ∀ a b st_a st_b, a ∈ path → b ∈ path →
             stations !! a = Some st_a → stations !! b = Some st_b →
             zone st_a = zone st_b).
Proof.
  intros (Hpos & hi & lo & st_hi & st_lo & Hhi & Hlo & Hsthi & Hstlo & -> & Hall)
    %zones_crossed_bounds.
  split.
  - intros Hone a b st_a st_b Ha Hb Hsta Hstb.
    destruct (Hall a Ha) as (st & Hst & ?).
    destruct (Hall b Hb) as (st' & Hst' & ?).
    assert (st = st_a) as -> by congruence.
    assert (st' = st_b) as -> by congruence. lia.
  - intros Hsame. rewrite (Hsame hi lo st_hi st_lo) by done. lia.
Qed.

Lemma zones_crossed_one_witness :
  zones_crossed demo_stations ["A"; "B"]%string = Returns 1 ∧
  (1 = 1 ↔ ∀ a b st_a st_b, a ∈ ["A"; "B"]%string → b ∈ ["A"; "B"]%string →
             demo_stations !! a = Some st_a → demo_stations !! b = Some st_b →
             zone st_a = zone st_b).
Proof.
  assert (Hrun : zones_crossed demo_stations ["A"; "B"]%string = Returns 1)
    by reflexivity.
  split; [exact Hrun|].
  exact (zones_crossed_one _ _ _ Hrun).
Defined.

(** X10. The zones crossed depend on the stations passed only, not on
    their order: the way back crosses as many zones as the way out. *)
Theorem zones_crossed_perm (stations : gmap string Station)
    (path path' : list string) (n : Z) :
  path ≡ₚ path' →
  zones_crossed stations path = Returns n →
  zones_crossed stations path' = Returns n.
Proof.
  intros Hperm Hn.
  assert (Hsome : ∃ n', zones_crossed stations path' = Returns n').
  { apply zones_crossed_outcome.
    assert (Hok : ∃ n, zones_crossed stations path = Returns n) by eauto.
    apply zones_crossed_outcome in Hok as [Hne Hknown]. split.
    - intros ->. by apply Permutation_nil_r in Hperm.
    - intros sid Hsid. apply Hknown. by rewrite Hperm. }
  destruct Hsome as [n' Hn']. rewrite Hn'. f_equal.
  apply zones_crossed_bounds in Hn
    as (_ & hi & lo & st_hi & st_lo & Hhi & Hlo & Hsthi & Hstlo & -> & Hall).
  apply zones_crossed_bounds in Hn'
    as (_ & hi' & lo' & st_hi' & st_lo' & Hhi' & Hlo' & Hsthi' & Hstlo' & -> & Hall').
  rewrite Hperm in Hhi, Hlo. rewrite <- Hperm in Hhi', Hlo'.
  destruct (Hall hi' Hhi') as (s1 & Hs1 & ?).
  destruct (Hall lo' Hlo') as (s2 & Hs2 & ?).
  destruct (Hall' hi Hhi) as (s3 & Hs3 & ?).
  destruct (Hall' lo Hlo) as (s4 & Hs4 & ?).
  assert (s1 = st_hi') as -> by congruence.
  assert (s2 = st_lo') as -> by congruence.
  assert (s3 = st_hi) as -> by congruence.
  assert (s4 = st_lo) as -> by congruence.
  lia.
Qed.

Lemma zones_crossed_perm_witness :
  ["A"; "C"; "B"; "D"]%string ≡ₚ reverse ["A"; "C"; "B"; "D"]%string ∧
  zones_crossed demo_stations ["A"; "C"; "B"; "D"]%string = Returns 3 ∧
  zones_crossed demo_stations (reverse ["A"; "C"; "B"; "D"]%string) = Returns 3.
Proof.
  assert (Hperm : ["A"; "C"; "B"; "D"]%string
                  ≡ₚ reverse ["A"; "C"; "B"; "D"]%string)
    by (symmetry; apply reverse_Permutation).
  assert (Hrun : zones_crossed demo_stations ["A"; "C"; "B"; "D"]%string
                 = Returns 3) by reflexivity.
  split; [exact Hperm|]. split; [exact Hrun|].
  exact (zones_crossed_perm _ _ _ _ Hperm Hrun).
Defined.

End ZonesFacts.

(** ** More on the fare table and the fare engine *)

Module FareExtra.
Import Fare FareFacts.

Lemma lookup_nonempty (zone_fares : gmap Z float) (k : Z) (fk : float) :
  zone_fares !! k = Some fk → zone_fares ≠ ∅.
Proof. intros Hk ->. by rewrite lookup_empty in Hk. Qed.

(** X11. Every zone count that is not a key of the table gets the fare of
    the greatest key: a count above it, but also a count of 0, a
    negative one, or one in a gap between two keys. *)
Theorem fare_for_zones_untabulated (zone_fares : gmap Z float)
    (required_zones k : Z) (fk : float) :
  zone_fares !! k = Some fk →
  (∀ j, is_Some (zone_fares !! j) → j ≤ k) →
  zone_fares !! required_zones = None →
  fare_for_zones required_zones zone_fares = Returns fk.
Proof.
  intros Hk Hmax Hnone.
  destruct (fare_for_zones_returns required_zones zone_fares
              (lookup_nonempty _ _ _ Hk)) as (m & fm & Hm & Hmmax & ->).
  rewrite Hnone. simpl.
  assert (m = k) as ->.
  { specialize (Hmax m (mk_is_Some _ _ Hm)).
    specialize (Hmmax k (mk_is_Some _ _ Hk)). lia. }
  congruence.
Qed.

Lemma fare_for_zones_untabulated_witness :
  fare_for_zones 0 scenario_fares = Returns 4.9%float ∧
  fare_for_zones (-2) scenario_fares = Returns 4.9%float.
Proof.
  assert (Hmax : ∀ j, is_Some (scenario_fares !! j) → j ≤ 3).
  { intros j [f Hj]. unfold scenario_fares in Hj.
    destruct (decide (j = 1)) as [->|?]; [lia|].
    destruct (decide (j = 2)) as [->|?]; [lia|].
    destruct (decide (j = 3)) as [->|?]; [lia|].
    by rewrite !lookup_insert_ne, lookup_empty in Hj. }
  split.
  - apply (fare_for_zones_untabulated scenario_fares 0 3); [reflexivity|exact Hmax|reflexivity].
  - apply (fare_for_zones_untabulated scenario_fares (-2) 3); [reflexivity|exact Hmax|reflexivity].
Defined.

Lemma fare_for_zones_empty (required_zones : Z) :
  fare_for_zones required_zones ∅ = Raises ValueError.
Proof. unfold fare_for_zones, max_key. by rewrite map_to_list_empty. Qed.

(** X12. The lookup and the engine raise [ValueError] on the empty table,
    whatever their other arguments, and on no other table: there they
    return. *)
Theorem empty_table_raises (session : option FareSession)
    (trip_time_minute required_zones : Z) (zone_fares : gmap Z float)
    (window_minutes : Z) :
  (fare_for_zones required_zones zone_fares = Raises ValueError ↔
     zone_fares = ∅) ∧
  (compute_fare_with_transfer_window session trip_time_minute required_zones
     zone_fares window_minutes = Raises ValueError ↔ zone_fares = ∅) ∧
  ((∃ r, compute_fare_with_transfer_window session trip_time_minute
           required_zones zone_fares window_minutes = Returns r) ↔
     zone_fares ≠ ∅).
Proof.
  destruct (decide (zone_fares = ∅)) as [->|Hne].
  - unfold compute_fare_with_transfer_window.
    rewrite fare_for_zones_empty. simpl.
    split; [done|]. split; [done|]. split; [by intros [? [=]]|done].
  - destruct (fare_for_zones_returns required_zones zone_fares Hne)
      as (k & fk & _ & _ & Hfare).
    assert (Hret : ∃ r, compute_fare_with_transfer_window session
               trip_time_minute required_zones zone_fares window_minutes
             = Returns r).
    { destruct session as [s|].
      - destruct (Z.lt_ge_cases window_minutes
                    (trip_time_minute - start_minute s)) as [Hexp|Hin].
        + destruct (engine_new_session zone_fares Hne window_minutes (Some s)
                      trip_time_minute required_zones) as (c & _ & ->); [|eauto].
          by intros s' [= <-].
        + destruct (engine_within_window zone_fares Hne window_minutes s
                      trip_time_minute required_zones Hin)
            as (c & p & _ & _ & ->). eauto.
      - destruct (engine_new_session zone_fares Hne window_minutes None
                    trip_time_minute required_zones) as (c & _ & ->);
          [done|eauto]. }
    rewrite Hfare. destruct Hret as [r Hr]. rewrite Hr.
    split; [done|]. split; [done|]. split; [done|eauto].
Qed.

(** X13. With a window that is not negative, a trip taken again at once
    is free: after any trip, the same trip at the same minute, or one
    that needs no more zones, is charged 0 and leaves the session as it
    is. *)
Theorem repeated_trip_is_free (session : option FareSession)
    (trip_time_minute required_zones required_zones' : Z)
    (zone_fares : gmap Z float) (window_minutes : Z)
    (charge : float) (session' : FareSession) :
  0 ≤ window_minutes →
  required_zones' ≤ required_zones →
  compute_fare_with_transfer_window session trip_time_minute required_zones
    zone_fares window_minutes = Returns (charge, session') →
  compute_fare_with_transfer_window (Some session') trip_time_minute
    required_zones' zone_fares window_minutes = Returns (0%float, session').
Proof.
  intros Hw Hle Hfirst.
  assert (Hne : zone_fares ≠ ∅).
  { intros ->. unfold compute_fare_with_transfer_window in Hfirst.
    by rewrite fare_for_zones_empty in Hfirst. }
  assert (Hs' : trip_time_minute - start_minute session' ≤ window_minutes
                ∧ required_zones ≤ paid_zones session').
  { destruct session as [s|].
    - destruct (Z.lt_ge_cases window_minutes
                  (trip_time_minute - start_minute s)) as [Hexp|Hin].
      + destruct (engine_new_session zone_fares Hne window_minutes (Some s)
                    trip_time_minute required_zones) as (c & _ & Heq).
        { by intros s' [= <-]. }
        rewrite Heq in Hfirst. injection Hfirst as _ <-. simpl. lia.
      + destruct (engine_within_window zone_fares Hne window_minutes s
                    trip_time_minute required_zones Hin)
          as (c & p & _ & _ & Heq).
        rewrite Heq in Hfirst.
        destruct (Z.leb_spec required_zones (paid_zones s));
          injection Hfirst as _ <-; simpl; lia.
    - destruct (engine_new_session zone_fares Hne window_minutes None
                  trip_time_minute required_zones) as (c & _ & Heq); [done|].
      rewrite Heq in Hfirst. injection Hfirst as _ <-. simpl. lia. }
  destruct Hs' as [Hin Hpaid].
  destruct (engine_within_window zone_fares Hne window_minutes session'
              trip_time_minute required_zones' Hin) as (c & p & _ & _ & ->).
  destruct (Z.leb_spec required_zones' (paid_zones session')); [done|lia].
Qed.

Lemma repeated_trip_is_free_witness :
  0 ≤ 60 ∧ 1 ≤ 2 ∧
  compute_fare_with_transfer_window (Some (mkFareSession 540 1)) 560 2
    scenario_fares 60 = Returns (1.25%float, mkFareSession 540 2) ∧
  compute_fare_with_transfer_window (Some (mkFareSession 540 2)) 560 1
    scenario_fares 60 = Returns (0%float, mkFareSession 540 2).
Proof.
  assert (Hfirst : compute_fare_with_transfer_window (Some (mkFareSession 540 1))
                     560 2 scenario_fares 60
                   = Returns (1.25%float, mkFareSession 540 2))
    by (vm_compute; reflexivity).
  split; [lia|]. split; [lia|]. split; [exact Hfirst|].
  exact (repeated_trip_is_free _ 560 2 1 scenario_fares 60 _ _
           ltac:(lia) ltac:(lia) Hfirst).
Defined.

Lemma float_ltb_leb (x y : float) :
  PrimFloat.ltb x y = true → PrimFloat.leb x y = true.
Proof.
  rewrite ltb_spec, leb_spec. unfold SFltb, SFleb.
  by destruct (SFcompare (Prim2SF x) (Prim2SF y)) as [[]|].
Qed.

Lemma float_max_zero (x : float) :
  PrimFloat.leb 0%float (float_max 0%float x) = true.
Proof.
  unfold float_max. destruct (PrimFloat.ltb 0%float x) eqn:Hx.
  - by apply float_ltb_leb.
  - reflexivity.
Qed.

(** X14. Within the window the charge is never negative and never a NaN,
    whatever the fares of the table: a trip that needs more zones than
    paid is not refunded even when its fare is the lower one. *)
Theorem window_charge_nonneg (s : FareSession)
    (trip_time_minute required_zones : Z) (zone_fares : gmap Z float)
    (window_minutes : Z) (charge : float) (session' : FareSession) :
  trip_time_minute - start_minute s ≤ window_minutes →
  compute_fare_with_transfer_window (Some s) trip_time_minute required_zones
    zone_fares window_minutes = Returns (charge, session') →
  PrimFloat.leb 0%float charge = true.
Proof.
  intros Hin Hrun.
  assert (Hne : zone_fares ≠ ∅).
  { intros ->. unfold compute_fare_with_transfer_window in Hrun.
    by rewrite fare_for_zones_empty in Hrun. }
  destruct (engine_within_window zone_fares Hne window_minutes s
              trip_time_minute required_zones Hin) as (c & p & _ & _ & Heq).
  rewrite Heq in Hrun.
  destruct (required_zones <=? paid_zones s); injection Hrun as <- _.
  - reflexivity.
  - apply float_max_zero.
Qed.

(** A table whose fare goes down with the zones. *)
Lemma window_charge_nonneg_witness :
  let fares : gmap Z float := <[1 := 5%float]> (<[2 := 3%float]> ∅) in
  560 - 540 ≤ 60 ∧
  compute_fare_with_transfer_window (Some (mkFareSession 540 1)) 560 2 fares 60
    = Returns (0%float, mkFareSession 540 2) ∧
  PrimFloat.leb 0%float 0%float = true.
Proof.
  intros fares.
  assert (Hrun : compute_fare_with_transfer_window (Some (mkFareSession 540 1))
                   560 2 fares 60 = Returns (0%float, mkFareSession 540 2))
    by (vm_compute; reflexivity).
  split; [lia|]. split; [exact Hrun|].
  exact (window_charge_nonneg (mkFareSession 540 1) 560 2 fares 60 _ _
           ltac:(simpl; lia) Hrun).
Defined.

End FareExtra.

(** ** More on the shortest-path finder *)

Module RoutingExtra.
Import PathAnalyzer Lines Routing RoutingFacts Loader.

#[local] Arguments walk_back : simpl never.

(** *** Routes *)

Lemma route_last (graph : gmap string (list Edge)) (a : string)
    (path : list string) (total : Z) (b : string) :
  route graph a path total b → last path = Some b.
Proof.
  induction 1 as [u|u edges e path total v Hu He Hr IH]; [done|].
  destruct (route_head _ _ _ _ _ Hr) as [rest ->]. by rewrite last_cons_cons.
Qed.

Lemma route_app (graph : gmap string (list Edge)) (a b c : string)
    (p1 p2 : list string) (t1 t2 : Z) :
  route graph a p1 t1 b → route graph b p2 t2 c →
  route graph a (p1 ++ tail p2) (t1 + t2) c.
Proof.
  intros H1 H2. induction H1 as [u|u edges e path total v Hu He Hr IH].
  - destruct (route_head _ _ _ _ _ H2) as [rest ->]. by simpl.
  - replace (minutes e + total + t2) with (minutes e + (total + t2)) by lia.
    simpl. econstructor; eauto.
Qed.

Lemma route_reverse (graph : gmap string (list Edge)) (a b : string)
    (path : list string) (total : Z) :
  symmetric graph → route graph a path total b →
  route graph b (reverse path) total a.
Proof.
  intros Hsym. induction 1 as [u|u edges e path total v Hu He Hr IH].
  - constructor.
  - destruct (Hsym u edges e Hu He) as (edges' & Hedges' & He').
    rewrite reverse_cons.
    replace (minutes e + total)
      with (total + minutes (mkEdge u (minutes e) (line e) (mode e))) by (simpl; lia).
    by apply (route_snoc graph v (reverse path) total (to_id e) edges'
                (mkEdge u (minutes e) (line e) (mode e))).
Qed.

Lemma route_stations (graph : gmap string (list Edge)) (a b : string)
    (path : list string) (total : Z) (s : string) :
  route graph a path total b → s ∈ path → s = b ∨ is_Some (graph !! s).
Proof.
  induction 1 as [u|u edges e path total v Hu He Hr IH]; intros Hs.
  - left. by apply list_elem_of_singleton in Hs.
  - apply elem_of_cons in Hs as [->|Hs]; [right; eauto|by apply IH].
Qed.

Lemma first_edge_to_exists (edges : list Edge) (e : Edge) :
  e ∈ edges → ∃ e', first_edge_to (to_id e) edges = Returns e'.
Proof.
  induction edges as [|x edges IH]; intros He; simpl.
  - by apply elem_of_nil in He.
  - destruct (decide (to_id x = to_id e)); [eauto|].
    apply elem_of_cons in He as [->|He]; [done|by apply IH].
Qed.

Lemma segment_edges_cons (graph : gmap string (list Edge)) (a b : string)
    (rest : list string) :
  segment_edges graph (segments (a :: b :: rest))
  = e ← edge_info graph a b;
    es ← segment_edges graph (segments (b :: rest));
    Returns (e :: es).
Proof. done. Qed.

(** The segments of a route are connections that [edge_info] finds. *)
Lemma route_segment_edges (graph : gmap string (list Edge)) (a b : string)
    (path : list string) (total : Z) :
  route graph a path total b →
  ∃ es, segment_edges graph (segments path) = Returns es.
Proof.
  induction 1 as [u|u edges e path total v Hu He Hr [es IH]].
  - by exists [].
  - destruct (route_head _ _ _ _ _ Hr) as [rest ->].
    rewrite segment_edges_cons, IH. unfold edge_info. rewrite Hu.
    destruct (first_edge_to_exists edges e He) as [e' ->].
    simpl. eauto.
Qed.

(** *** What a found path is *)

(** The run behind a found path. *)
Lemma dijkstra_path_back (graph : gmap string (list Edge))
    (start_id goal_id : string) (path : list string) (total : Z) :
  nonneg graph →
  dijkstra_path graph start_id goal_id = Returns (Some (path, total)) →
  is_Some (graph !! start_id) ∧ is_Some (graph !! goal_id) ∧
  ∃ st, post graph start_id goal_id st ∧ dist st !! goal_id = Some total ∧
        back graph start_id (prev st) goal_id path total.
Proof.
  intros Hpos. unfold dijkstra_path.
  destruct (graph !! start_id) as [es|]; [|done].
  destruct (graph !! goal_id) as [eg|]; [|done].
  destruct (dijkstra_loop (loop_fuel graph) graph goal_id (init start_id))
    as [st| |] eqn:Hloop; [|done..].
  pose proof (dijkstra_loop_post graph start_id goal_id Hpos _ _ _
                (init_inv graph start_id goal_id) Hloop) as Hpost.
  simpl. destruct (dist st !! goal_id) as [d|] eqn:Hd; [|done].
  destruct (walk_back_post graph start_id goal_id st d Hpost Hd)
    as (p & Hb & ->).
  simpl. rewrite reverse_involutive. intros [= <- <-].
  split; [eauto|]. split; [eauto|]. exists st. done.
Qed.

Lemma found_path_facts (graph : gmap string (list Edge))
    (start_id goal_id : string) (path : list string) (total : Z) :
  nonneg graph →
  dijkstra_path graph start_id goal_id = Returns (Some (path, total)) →
  head path = Some start_id ∧ last path = Some goal_id ∧
  NoDup path ∧ (∀ s, s ∈ path → is_Some (graph !! s)) ∧
  0 ≤ total ∧ (start_id ≠ goal_id → (2 ≤ length path)%nat).
Proof.
  intros Hpos Hrun.
  destruct (dijkstra_path_back _ _ _ _ _ Hpos Hrun)
    as (Hs & Hg & st & _ & _ & Hb).
  pose proof (back_route _ _ _ _ _ _ Hb) as Hr.
  destruct (route_head _ _ _ _ _ Hr) as [rest ->].
  pose proof (route_last _ _ _ _ _ Hr) as Hlast.
  split; [done|]. split; [done|].
  split; [by eapply back_NoDup|].
  split.
  - intros s Hin. by destruct (route_stations _ _ _ _ _ s Hr Hin) as [->|].
  - split; [by eapply route_nonneg|].
    intros Hne. destruct rest as [|x rest]; [|simpl; lia].
    injection Hlast as ->. done.
Qed.

(** X15. A found path starts at the start and ends at the goal, passes no
    station twice, passes only stations of the network, and has at
    least two stations unless start and goal are the same; the total is
    not negative. *)
Theorem found_path_shape (graph : gmap string (list Edge))
    (start_id goal_id : string) (path : list string) (total : Z) :
  nonneg graph →
  dijkstra_path graph start_id goal_id = Returns (Some (path, total)) →
  head path = Some start_id ∧ last path = Some goal_id ∧
  NoDup path ∧ (∀ s, s ∈ path → is_Some (graph !! s)) ∧
  0 ≤ total ∧ (start_id ≠ goal_id → (2 ≤ length path)%nat).
Proof. apply found_path_facts. Qed.

Lemma found_path_shape_witness :
  nonneg demo_graph ∧
  dijkstra_path demo_graph "A" "D"
    = Returns (Some (["A"; "C"; "B"; "D"]%string, 8)) ∧
  NoDup ["A"; "C"; "B"; "D"]%string ∧ 0 ≤ 8.
Proof.
  assert (Hrun : dijkstra_path demo_graph "A" "D"
                 = Returns (Some (["A"; "C"; "B"; "D"]%string, 8)))
    by (vm_compute; reflexivity).
  destruct (found_path_shape demo_graph "A" "D" _ _ demo_graph_nonneg Hrun)
    as (_ & _ & Hnd & _ & Hpos & _).
  split; [exact demo_graph_nonneg|]. split; [exact Hrun|].
  split; [exact Hnd|exact Hpos].
Defined.

(** *** The finder returns *)

Lemma walk_back_not_raises (fuel : nat) (prev : gmap string (option string))
    (cur : option string) (path : list string) (e : exn) :
  walk_back fuel prev cur path ≠ Raises e.
Proof.
  revert cur path. induction fuel as [|fuel IH]; intros [c|] path;
    rewrite ?walk_back_None; try done.
  rewrite walk_back_Some. apply IH.
Qed.

Lemma dijkstra_path_total (graph : gmap string (list Edge))
    (start_id goal_id : string) :
  (nonneg graph → dijkstra_path graph start_id goal_id ≠ Diverges) ∧
  (closed graph → ∀ e, dijkstra_path graph start_id goal_id ≠ Raises e) ∧
  (closed graph → nonneg graph →
   is_Some (graph !! start_id) → is_Some (graph !! goal_id) →
   ∃ r, dijkstra_path graph start_id goal_id = Returns r ∧
        (is_Some r ↔ reachable graph start_id goal_id)).
Proof.
  pose proof (dijkstra_loop_fuel graph goal_id start_id) as Hfuel.
  unfold dijkstra_path.
  destruct (graph !! start_id) as [es|] eqn:Hs;
    [|split; [done|split; [done|by intros _ _ [? [=]]]]].
  destruct (graph !! goal_id) as [eg|] eqn:Hg;
    [|split; [done|split; [done|by intros _ _ _ [? [=]]]]].
  split; [|split].
  - intros Hpos.
    destruct (dijkstra_loop (loop_fuel graph) graph goal_id (init start_id))
      as [st| |] eqn:Hloop; [|done..].
    pose proof (dijkstra_loop_post graph start_id goal_id Hpos _ _ _
                  (init_inv graph start_id goal_id) Hloop) as Hpost.
    simpl. destruct (dist st !! goal_id) as [d|] eqn:Hd; [|done].
    by destruct (walk_back_post graph start_id goal_id st d Hpost Hd)
      as (p & _ & ->).
  - intros Hclosed e.
    pose proof (dijkstra_loop_known graph start_id goal_id Hclosed
                  (loop_fuel graph) (init start_id)
                  (init_known graph start_id (mk_is_Some _ _ Hs))) as Hk.
    destruct (dijkstra_loop (loop_fuel graph) graph goal_id (init start_id))
      as [st| |]; [|done..].
    simpl. destruct (dist st !! goal_id) as [d|]; [|done].
    pose proof (walk_back_not_raises (S (size (prev st))) (prev st)
                  (Some goal_id) [] e).
    destruct (walk_back (S (size (prev st))) (prev st) (Some goal_id) []);
      simpl; [done| |done].
    intros [= <-]. done.
  - intros Hclosed Hpos _ _.
    pose proof (dijkstra_loop_known graph start_id goal_id Hclosed
                  (loop_fuel graph) (init start_id)
                  (init_known graph start_id (mk_is_Some _ _ Hs))) as Hk.
    destruct (dijkstra_loop (loop_fuel graph) graph goal_id (init start_id))
      as [st| |] eqn:Hloop; [|done..].
    pose proof (dijkstra_loop_post graph start_id goal_id Hpos _ _ _
                  (init_inv graph start_id goal_id) Hloop) as Hpost.
    simpl. destruct (dist st !! goal_id) as [d|] eqn:Hd.
    + destruct (walk_back_post graph start_id goal_id st d Hpost Hd)
        as (p & Hb & ->).
      simpl. eexists. split; [done|]. split; [|by eexists].
      intros _. exists p, d. by eapply back_route.
    + exists None. split; [done|]. split; [by intros [? [=]]|].
      intros Hreach. destruct Hpost as (_ & _ & Hnone). by destruct (Hnone Hd).
Qed.

(** X16. The finder does not run forever in a network without negative
    minutes, and raises nothing in a network whose connections all lead
    to stations; in a network with both properties it returns a path
    exactly when a route joins the two stations, and [None] otherwise. *)
Theorem dijkstra_path_returns (graph : gmap string (list Edge))
    (start_id goal_id : string) :
  (nonneg graph → dijkstra_path graph start_id goal_id ≠ Diverges) ∧
  (closed graph → ∀ e, dijkstra_path graph start_id goal_id ≠ Raises e) ∧
  (closed graph → nonneg graph →
   is_Some (graph !! start_id) → is_Some (graph !! goal_id) →
   ∃ r, dijkstra_path graph start_id goal_id = Returns r ∧
        (is_Some r ↔ reachable graph start_id goal_id)).
Proof. apply dijkstra_path_total. Qed.

Lemma dijkstra_path_returns_witness :
  closed demo_graph ∧ nonneg demo_graph ∧
  dijkstra_path demo_graph "C" "D" ≠ Diverges ∧
  (∀ e, dijkstra_path demo_graph "C" "D" ≠ Raises e) ∧
  ∃ r, dijkstra_path demo_graph "C" "D" = Returns r ∧
       (is_Some r ↔ reachable demo_graph "C" "D").
Proof.
  destruct (dijkstra_path_returns demo_graph "C" "D") as (Hdiv & Hraise & Hret).
  split; [exact demo_graph_closed|]. split; [exact demo_graph_nonneg|].
  split; [exact (Hdiv demo_graph_nonneg)|].
  split; [exact (Hraise demo_graph_closed)|].
  apply (Hret demo_graph_closed demo_graph_nonneg).
  - eexists. vm_compute. reflexivity.
  - eexists. vm_compute. reflexivity.
Defined.

(** *** Times *)

(** X17. Fastest times obey the triangle inequality: going from [a] to
    [c] takes no longer than going from [a] to [b] and on to [c]. *)
Theorem fastest_time_triangle (graph : gmap string (list Edge))
    (a b c : string) (p_ab p_bc p_ac : list string) (t_ab t_bc t_ac : Z) :
  nonneg graph →
  dijkstra_path graph a b = Returns (Some (p_ab, t_ab)) →
  dijkstra_path graph b c = Returns (Some (p_bc, t_bc)) →
  dijkstra_path graph a c = Returns (Some (p_ac, t_ac)) →
  t_ac ≤ t_ab + t_bc.
Proof.
  intros Hpos Hab Hbc Hac.
  destruct (dijkstra_path_back _ _ _ _ _ Hpos Hab) as (_ & _ & st1 & _ & _ & Hb1).
  destruct (dijkstra_path_back _ _ _ _ _ Hpos Hbc) as (_ & _ & st2 & _ & _ & Hb2).
  destruct (dijkstra_path_back _ _ _ _ _ Hpos Hac)
    as (_ & _ & st3 & (_ & Hbest & _) & Hd3 & _).
  destruct (Hbest _ Hd3) as [_ Hopt]. eapply Hopt.
  eapply route_app; by eapply back_route.
Qed.

Lemma fastest_time_triangle_witness :
  nonneg demo_graph ∧
  dijkstra_path demo_graph "A" "B" = Returns (Some (["A"; "C"; "B"]%string, 3)) ∧
  dijkstra_path demo_graph "B" "D" = Returns (Some (["B"; "D"]%string, 5)) ∧
  dijkstra_path demo_graph "A" "D"
    = Returns (Some (["A"; "C"; "B"; "D"]%string, 8)) ∧
  8 ≤ 3 + 5.
Proof.
  assert (Hab : dijkstra_path demo_graph "A" "B"
                = Returns (Some (["A"; "C"; "B"]%string, 3)))
    by (vm_compute; reflexivity).
  assert (Hbd : dijkstra_path demo_graph "B" "D"
                = Returns (Some (["B"; "D"]%string, 5)))
    by (vm_compute; reflexivity).
  assert (Had : dijkstra_path demo_graph "A" "D"
                = Returns (Some (["A"; "C"; "B"; "D"]%string, 8)))
    by (vm_compute; reflexivity).
  split; [exact demo_graph_nonneg|]. split; [exact Hab|].
  split; [exact Hbd|]. split; [exact Had|].
  exact (fastest_time_triangle demo_graph "A" "B" "D" _ _ _ _ _ _
           demo_graph_nonneg Hab Hbd Had).
Defined.

Lemma symmetric_closed (graph : gmap string (list Edge)) :
  symmetric graph → closed graph.
Proof.
  intros Hsym u edges e Hu He.
  destruct (Hsym u edges e Hu He) as (edges' & -> & _). eauto.
Qed.

Lemma symmetric_time (graph : gmap string (list Edge))
    (a b : string) (path : list string) (total : Z) :
  symmetric graph → nonneg graph →
  dijkstra_path graph a b = Returns (Some (path, total)) →
  ∃ path', dijkstra_path graph b a = Returns (Some (path', total)).
Proof.
  intros Hsym Hpos Hab.
  destruct (dijkstra_path_back _ _ _ _ _ Hpos Hab)
    as (Ha & Hb & st & (_ & Hbest & _) & Hd & Hback).
  apply back_route in Hback.
  pose proof (route_reverse _ _ _ _ _ Hsym Hback) as Hrev.
  destruct (dijkstra_path_finds graph b a (symmetric_closed _ Hsym) Hpos Hb Ha)
    as (path' & total' & Hba); [by exists (reverse path), total|].
  exists path'. rewrite Hba. do 3 f_equal.
  destruct (dijkstra_path_back _ _ _ _ _ Hpos Hba)
    as (_ & _ & st' & (_ & Hbest' & _) & Hd' & Hback').
  apply back_route in Hback'.
  pose proof (route_reverse _ _ _ _ _ Hsym Hback') as Hrev'.
  destruct (Hbest _ Hd) as [_ Hopt]. destruct (Hbest' _ Hd') as [_ Hopt'].
  specialize (Hopt _ _ Hrev'). specialize (Hopt' _ _ Hrev). lia.
Qed.

(** X18. Where every connection has its twin in the other direction, as
    in a loaded network, the way back is found whenever the way out is,
    and takes the same time. *)
Theorem fastest_time_symmetric (graph : gmap string (list Edge))
    (a b : string) (path : list string) (total : Z) :
  symmetric graph → nonneg graph →
  dijkstra_path graph a b = Returns (Some (path, total)) →
  ∃ path', dijkstra_path graph b a = Returns (Some (path', total)).
Proof. apply symmetric_time. Qed.

Lemma demo_graph_symmetric : symmetric demo_graph.
Proof.
  intros u edges e Hu He.
  demo_edges Hu He; simpl; eexists; (split; [vm_compute; reflexivity|]);
    repeat constructor.
Qed.

Lemma fastest_time_symmetric_witness :
  symmetric demo_graph ∧ nonneg demo_graph ∧
  dijkstra_path demo_graph "A" "D"
    = Returns (Some (["A"; "C"; "B"; "D"]%string, 8)) ∧
  ∃ path', dijkstra_path demo_graph "D" "A" = Returns (Some (path', 8)).
Proof.
  assert (Hrun : dijkstra_path demo_graph "A" "D"
                 = Returns (Some (["A"; "C"; "B"; "D"]%string, 8)))
    by (vm_compute; reflexivity).
  split; [exact demo_graph_symmetric|]. split; [exact demo_graph_nonneg|].
  split; [exact Hrun|].
  exact (fastest_time_symmetric demo_graph "A" "D" _ _ demo_graph_symmetric
           demo_graph_nonneg Hrun).
Defined.

(** *** A found path in the analyzer *)

Lemma found_path_analysis (upper : string → string)
    (graph : gmap string (list Edge)) (start_id goal_id : string)
    (path : list string) (total : Z) :
  nonneg graph →
  dijkstra_path graph start_id goal_id = Returns (Some (path, total)) →
  ∃ lines mode ts,
    segment_lines graph path = Returns lines ∧
    length lines = pred (length path) ∧
    infer_mode_for_path upper graph path = Returns mode ∧
    (mode = "TRAIN"%string ∨ mode = "BUS"%string) ∧
    transfer_stations path lines = Some ts.
Proof.
  intros Hpos Hrun.
  destruct (dijkstra_path_back _ _ _ _ _ Hpos Hrun)
    as (_ & _ & st & _ & _ & Hb).
  apply back_route in Hb.
  destruct (route_segment_edges _ _ _ _ _ Hb) as [es Hes].
  destruct (LinesFacts.segment_edges_lookup _ _ _ Hes) as [Hlen _].
  assert (Hlines : segment_lines graph path = Returns (line <$> es)).
  { unfold segment_lines. by rewrite LinesFacts.segment_lines_loop_edges, Hes. }
  assert (Hcount : length (line <$> es) = pred (length path)).
  { by rewrite length_fmap, Hlen, LinesFacts.segments_length. }
  exists (line <$> es).
  assert (Hmode : ∃ mode, infer_mode_for_path upper graph path = Returns mode ∧
                    (mode = "TRAIN"%string ∨ mode = "BUS"%string)).
  { unfold infer_mode_for_path. destruct (length path <? 2)%nat; [eauto|].
    rewrite (PathFacts.scan_modes_spec upper graph _ es false Hes). simpl.
    destruct (bool_decide (Exists (train_like upper) es)); eauto. }
  destruct Hmode as (mode & Hmode & Hcases).
  pose proof (LinesFacts.transfer_stations_cases path (line <$> es)) as Hts.
  destruct (transfer_stations path (line <$> es)) as [ts|].
  - by exists mode, ts.
  - destruct Hts as (i & ? & ? & _). lia.
Qed.

(** X19. The analyzer never fails on a path that the finder returned:
    [segment_lines] returns a line for each segment, the mode inferred
    is "TRAIN" or "BUS", and [transfer_stations] finds every index. *)
Theorem found_path_analyzable (upper : string → string)
    (graph : gmap string (list Edge)) (start_id goal_id : string)
    (path : list string) (total : Z) :
  nonneg graph →
  dijkstra_path graph start_id goal_id = Returns (Some (path, total)) →
  ∃ lines mode ts,
    segment_lines graph path = Returns lines ∧
    length lines = pred (length path) ∧
    infer_mode_for_path upper graph path = Returns mode ∧
    (mode = "TRAIN"%string ∨ mode = "BUS"%string) ∧
    transfer_stations path lines = Some ts.
Proof. apply found_path_analysis. Qed.

Lemma found_path_analyzable_witness :
  nonneg demo_graph ∧
  dijkstra_path demo_graph "A" "D"
    = Returns (Some (["A"; "C"; "B"; "D"]%string, 8)) ∧
  ∃ lines mode ts,
    segment_lines demo_graph ["A"; "C"; "B"; "D"]%string = Returns lines ∧
    length lines = pred (length ["A"; "C"; "B"; "D"]%string) ∧
    infer_mode_for_path ascii_upper demo_graph ["A"; "C"; "B"; "D"]%string
      = Returns mode ∧
    (mode = "TRAIN"%string ∨ mode = "BUS"%string) ∧
    transfer_stations ["A"; "C"; "B"; "D"]%string lines = Some ts.
Proof.
  assert (Hrun : dijkstra_path demo_graph "A" "D"
                 = Returns (Some (["A"; "C"; "B"; "D"]%string, 8)))
    by (vm_compute; reflexivity).
  split; [exact demo_graph_nonneg|]. split; [exact Hrun|].
  exact (found_path_analyzable ascii_upper demo_graph "A" "D" _ _
           demo_graph_nonneg Hrun).
Defined.

End RoutingExtra.

(** ** Loading the network *)

Module LoaderFacts.
Import Routing Loader.

Lemma link_lookup (graph : gmap string (list Edge)) (a b : string)
    (m : Z) (l md : string) (u : string) :
  link graph a b m l md !! u
  = (λ edges, edges ++ (if decide (u = a) then [mkEdge b m l md] else []) ++
                       (if decide (u = b) then [mkEdge a m l md] else []))
    <$> graph !! u.
Proof.
  unfold link.
  destruct (decide (u = a)) as [Ha|Ha], (decide (u = b)) as [Hb|Hb]; subst.
  - rewrite !lookup_alter_eq. destruct (graph !! b); simpl; [|done].
    by rewrite <- app_assoc.
  - rewrite lookup_alter_ne, lookup_alter_eq by done.
    by destruct (graph !! a).
  - rewrite lookup_alter_eq, lookup_alter_ne by done.
    by destruct (graph !! b).
  - rewrite !lookup_alter_ne by done.
    destruct (graph !! u); simpl; [|done]. by rewrite app_nil_r.
Qed.

(** The loop over the rows, by cases on its result. *)
Lemma load_edges_cases (stations : gmap string Station)
    (edge_rows : list EdgeRow) (graph : gmap string (list Edge)) :
  match load_edges stations graph edge_rows with
  | Returns graph' =>
      Forall (known_row stations) edge_rows ∧
      ∀ u, graph' !! u = (λ edges, edges ++ edges_of edge_rows u) <$> graph !! u
  | Raises e => e = ValueError ∧ ¬ Forall (known_row stations) edge_rows
  | Diverges => False
  end.
Proof.
  revert graph. induction edge_rows as [|row rows IH]; intros graph; simpl.
  - split; [constructor|]. intros u. destruct (graph !! u); simpl; [|done].
    by rewrite app_nil_r.
  - destruct (stations !! row_from row) as [sa|] eqn:Ha;
      [destruct (stations !! row_to row) as [sb|] eqn:Hb|].
    + specialize (IH (link graph (row_from row) (row_to row) (row_minutes row)
                        (row_line row) (row_mode row))).
      destruct (load_edges stations _ rows) as [graph'|e|]; [| |done].
      * destruct IH as [Hall Hlook]. split.
        { constructor; [|done]. split; eauto. }
        intros u. rewrite Hlook, link_lookup.
        destruct (graph !! u); simpl; [|done].
        unfold row_edge, row_edge_back. by rewrite <- !app_assoc.
      * destruct IH as [-> Hnot]. split; [done|].
        intros Hall. apply Forall_cons in Hall as [_ Hall]. done.
    + split; [done|]. intros Hall. apply Forall_cons in Hall as [[_ [? Hk]] _].
      congruence.
    + split; [done|]. intros Hall. apply Forall_cons in Hall as [[[? Hk] _] _].
      congruence.
Qed.

Lemma elem_of_edges_of (edge_rows : list EdgeRow) (u : string) (e : Edge) :
  e ∈ edges_of edge_rows u ↔
  ∃ row, row ∈ edge_rows ∧
    ((u = row_from row ∧ e = row_edge row) ∨
     (u = row_to row ∧ e = row_edge_back row)).
Proof.
  induction edge_rows as [|row rows IH]; simpl.
  - split; [by intros ?%elem_of_nil|]. by intros (? & ?%elem_of_nil & _).
  - rewrite !elem_of_app, IH. split.
    + intros [Hin|[Hin|(row' & Hin & Hcase)]].
      * destruct (decide (u = row_from row)) as [->|]; [|by apply elem_of_nil in Hin].
        apply list_elem_of_singleton in Hin as ->.
        exists row. split; [left|]. by left.
      * destruct (decide (u = row_to row)) as [->|]; [|by apply elem_of_nil in Hin].
        apply list_elem_of_singleton in Hin as ->.
        exists row. split; [left|]. by right.
      * exists row'. split; [by right|done].
    + intros (row' & Hin & Hcase).
      apply elem_of_cons in Hin as [->|Hin].
      * destruct Hcase as [[-> ->]|[-> ->]].
        -- left. rewrite decide_True by done. left.
        -- right. left. rewrite decide_True by done. left.
      * right. right. eauto.
Qed.

(** What a loaded network is. *)
Lemma build_network_graph (station_rows : list Station)
    (edge_rows : list EdgeRow) (stations : gmap string Station)
    (graph : gmap string (list Edge)) :
  build_network station_rows edge_rows = Returns (stations, graph) →
  stations = load_stations station_rows ∧
  Forall (known_row stations) edge_rows ∧
  ∀ u, graph !! u = (λ _, edges_of edge_rows u) <$> stations !! u.
Proof.
  unfold build_network.
  pose proof (load_edges_cases (load_stations station_rows) edge_rows
                (empty_graph (load_stations station_rows))) as H.
  destruct (load_edges _ _ edge_rows) as [graph'| |]; simpl; [|done..].
  intros [= <- <-]. destruct H as [Hall Hlook].
  split; [done|]. split; [done|].
  intros u. rewrite Hlook. unfold empty_graph. rewrite lookup_fmap.
  by destruct (load_stations station_rows !! u).
Qed.

Lemma loaded_closed (stations : gmap string Station)
    (edge_rows : list EdgeRow) (graph : gmap string (list Edge)) :
  Forall (known_row stations) edge_rows →
  (∀ u, graph !! u = (λ _, edges_of edge_rows u) <$> stations !! u) →
  symmetric graph.
Proof.
  intros Hall Hgraph u edges e Hu He.
  rewrite Hgraph in Hu. apply fmap_Some in Hu as (su & Hsu & ->).
  apply elem_of_edges_of in He as (row & Hrow & Hcase).
  rewrite Forall_forall in Hall. destruct (Hall row Hrow) as [[sa Ha] [sb Hb]].
  destruct Hcase as [[-> ->]|[-> ->]]; simpl.
  - exists (edges_of edge_rows (row_to row)). rewrite Hgraph, Hb. split; [done|].
    apply elem_of_edges_of. exists row. split; [done|]. right. done.
  - exists (edges_of edge_rows (row_from row)). rewrite Hgraph, Ha. split; [done|].
    apply elem_of_edges_of. exists row. split; [done|]. left. done.
Qed.

Lemma loaded_nonneg (stations : gmap string Station)
    (edge_rows : list EdgeRow) (graph : gmap string (list Edge)) :
  Forall (λ row, 0 ≤ row_minutes row) edge_rows →
  (∀ u, graph !! u = (λ _, edges_of edge_rows u) <$> stations !! u) →
  nonneg graph.
Proof.
  intros Hrows Hgraph u edges e Hu He. rewrite Hgraph in Hu.
  apply fmap_Some in Hu as (? & _ & ->).
  rewrite Forall_forall in Hrows.
  apply elem_of_edges_of in He as (row & Hrow & [[_ ->]|[_ ->]]);
    simpl; by apply Hrows.
Qed.

(** X20. The graph of a loaded network has a list for every station and
    for nothing else; the list of a station holds the connections of
    the rows that name it, in the order of the rows; every connection
    leads to a station and has its twin in the other direction. *)
Theorem build_network_invariants (station_rows : list Station)
    (edge_rows : list EdgeRow) (stations : gmap string Station)
    (graph : gmap string (list Edge)) :
  build_network station_rows edge_rows = Returns (stations, graph) →
  dom graph = dom stations ∧
  (∀ u edges, graph !! u = Some edges → edges = edges_of edge_rows u) ∧
  closed graph ∧ symmetric graph.
Proof.
  intros (_ & Hall & Hgraph)%build_network_graph.
  pose proof (loaded_closed _ _ _ Hall Hgraph) as Hsym.
  split; [|split; [|split]].
  - apply set_eq. intros u. rewrite !elem_of_dom, Hgraph.
    by rewrite fmap_is_Some.
  - intros u edges Hu. rewrite Hgraph in Hu.
    by apply fmap_Some in Hu as (? & _ & ->).
  - intros u edges e Hu He.
    destruct (Hsym u edges e Hu He) as (edges' & -> & _). eauto.
  - done.
Qed.

Lemma build_network_demo :
  build_network demo_station_rows demo_edge_rows
  = Returns (Zones.demo_stations, demo_graph).
Proof. vm_compute. reflexivity. Qed.

Lemma build_network_invariants_witness :
  build_network demo_station_rows demo_edge_rows
    = Returns (Zones.demo_stations, demo_graph) ∧
  dom demo_graph = dom Zones.demo_stations ∧
  closed demo_graph ∧ symmetric demo_graph.
Proof.
  destruct (build_network_invariants _ _ _ _ build_network_demo)
    as (Hdom & _ & Hclosed & Hsym).
  split; [exact build_network_demo|]. split; [exact Hdom|].
  split; [exact Hclosed|exact Hsym].
Defined.


(** X22. The dict of stations holds, for every id, the last station row
    with that id, and nothing for an id without a row. *)
Theorem load_stations_lookup (station_rows : list Station) (sid : string) :
  load_stations station_rows !! sid
  = last (filter (λ row, id row = sid) station_rows).
Proof.
  unfold load_stations.
  induction station_rows as [|row rows IH] using rev_ind; [done|].
  rewrite foldl_snoc, filter_app, lookup_insert.
  rewrite filter_cons, filter_nil.
  destruct (decide (id row = sid)) as [Heq|Hne].
  - by rewrite last_snoc.
  - by rewrite app_nil_r.
Qed.

(** X23. In a network loaded from rows without negative minutes, the
    finder returns for any two stations, in both directions alike: a
    path each way with the same total, or no path either way. *)
Theorem loaded_network_routes (station_rows : list Station)
    (edge_rows : list EdgeRow) (stations : gmap string Station)
    (graph : gmap string (list Edge)) (a b : string) :
  build_network station_rows edge_rows = Returns (stations, graph) →
  Forall (λ row, 0 ≤ row_minutes row) edge_rows →
  is_Some (stations !! a) → is_Some (stations !! b) →
  ∃ r r', dijkstra_path graph a b = Returns r ∧
          dijkstra_path graph b a = Returns r' ∧
          snd <$> r = snd <$> r'.
Proof.
  intros (_ & Hall & Hgraph)%build_network_graph Hrows Ha Hb.
  pose proof (loaded_closed _ _ _ Hall Hgraph) as Hsym.
  pose proof (RoutingExtra.symmetric_closed _ Hsym) as Hclosed.
  assert (Hpos : nonneg graph).
  { intros u edges e Hu He. rewrite Hgraph in Hu.
    apply fmap_Some in Hu as (? & _ & ->).
    rewrite Forall_forall in Hrows.
    apply elem_of_edges_of in He as (row & Hrow & [[_ ->]|[_ ->]]);
      simpl; by apply Hrows. }
  assert (Hga : is_Some (graph !! a)) by (by rewrite Hgraph, fmap_is_Some).
  assert (Hgb : is_Some (graph !! b)) by (by rewrite Hgraph, fmap_is_Some).
  destruct (RoutingExtra.dijkstra_path_total graph a b) as (_ & _ & Hab).
  destruct (RoutingExtra.dijkstra_path_total graph b a) as (_ & _ & Hba).
  destruct (Hab Hclosed Hpos Hga Hgb) as (r & Hr & _).
  destruct (Hba Hclosed Hpos Hgb Hga) as (r' & Hr' & _).
  exists r, r'. split; [done|]. split; [done|].
  destruct r as [[p t]|], r' as [[p' t']|]; simpl; [| | |done].
  - destruct (RoutingExtra.symmetric_time _ _ _ _ _ Hsym Hpos Hr) as [p'' Hr''].
    congruence.
  - destruct (RoutingExtra.symmetric_time _ _ _ _ _ Hsym Hpos Hr) as [p'' Hr''].
    congruence.
  - destruct (RoutingExtra.symmetric_time _ _ _ _ _ Hsym Hpos Hr') as [p'' Hr''].
    congruence.
Qed.

Lemma loaded_network_routes_witness :
  build_network demo_station_rows demo_edge_rows
    = Returns (Zones.demo_stations, demo_graph) ∧
  Forall (λ row, 0 ≤ row_minutes row) demo_edge_rows ∧
  ∃ r r', dijkstra_path demo_graph "A" "Z" = Returns r ∧
          dijkstra_path demo_graph "Z" "A" = Returns r' ∧
          snd <$> r = snd <$> r'.
Proof.
  assert (Hrows : Forall (λ row, 0 ≤ row_minutes row) demo_edge_rows).
  { repeat (apply Forall_cons; split; [simpl; lia|]). apply Forall_nil_2. }
  split; [exact build_network_demo|]. split; [exact Hrows|].
  apply (loaded_network_routes _ _ _ _ "A" "Z" build_network_demo Hrows).
  - eexists. vm_compute. reflexivity.
  - eexists. vm_compute. reflexivity.
Defined.

End LoaderFacts.

(** ** Lines that serve a station *)

Module StationLinesFacts.
Import StationLines.

Lemma elem_of_add_lines (edges : list Edge) (s : gset string) (ln : string) :
  ln ∈ add_lines edges s ↔ ln ∈ s ∨ ∃ e, e ∈ edges ∧ line e = ln.
Proof.
  unfold add_lines. revert s. induction edges as [|x edges IH]; intros s; simpl.
  - split; [by left|]. intros [?|(e & ?%elem_of_nil & _)]; done.
  - rewrite IH, elem_of_union, elem_of_singleton. split.
    + intros [[?| ->]|(e & He & Hln)].
      * by left.
      * right. exists x. split; [left|done].
      * right. exists e. split; [by right|done].
    + intros [?|(e & He & Hln)]; [by do 2 left|].
      apply elem_of_cons in He as [->|He]; [left; by right|].
      right. by exists e.
Qed.

Lemma sorted_spec (s : gset string) :
  Sorted String.le (sorted s) ∧ NoDup (sorted s) ∧
  ∀ ln, ln ∈ sorted s ↔ ln ∈ s.
Proof.
  unfold sorted. split; [apply Sorted_merge_sort, _|]. split.
  - rewrite merge_sort_Permutation. apply NoDup_elements.
  - intros ln. by rewrite merge_sort_Permutation, elem_of_elements.
Qed.

(** X24. [station_lines] has an entry for every station of the graph and
    for nothing else; the entry of a station lists the lines of its
    connections, each line once, in ascending order. *)
Theorem station_lines_spec (graph : gmap string (list Edge)) :
  dom (station_lines graph) = dom graph ∧
  ∀ sid edges, graph !! sid = Some edges →
    ∃ lines, station_lines graph !! sid = Some lines ∧
      Sorted String.le lines ∧ NoDup lines ∧
      ∀ ln, ln ∈ lines ↔ ∃ e, e ∈ edges ∧ line e = ln.
Proof.
  unfold station_lines. split; [apply dom_fmap_L|].
  intros sid edges Hsid. eexists. rewrite lookup_fmap, Hsid. split; [done|].
  destruct (sorted_spec (add_lines edges ∅)) as (Hsorted & Hnd & Hin).
  split; [done|]. split; [done|].
  intros ln. rewrite Hin, elem_of_add_lines. split.
  - by intros [?%not_elem_of_empty|?].
  - by right.
Qed.

Lemma station_lines_spec_witness :
  Routing.demo_graph !! "B"%string
    = Some [mkEdge "A" 4 "Expo" "train"; mkEdge "C" 2 "R5" "Bus";
            mkEdge "D" 5 "Expo" "Train"]%string ∧
  station_lines Routing.demo_graph !! "B"%string = Some ["Expo"; "R5"]%string ∧
  ∃ lines, station_lines Routing.demo_graph !! "B"%string = Some lines ∧
    Sorted String.le lines ∧ NoDup lines.
Proof.
  assert (Hb : Routing.demo_graph !! "B"%string
               = Some [mkEdge "A" 4 "Expo" "train"; mkEdge "C" 2 "R5" "Bus";
                       mkEdge "D" 5 "Expo" "Train"]%string)
    by (vm_compute; reflexivity).
  split; [exact Hb|]. split; [vm_compute; reflexivity|].
  destruct (proj2 (station_lines_spec Routing.demo_graph) _ _ Hb)
    as (lines & Hl & Hs & Hnd & _).
  exists lines. split; [exact Hl|]. split; [exact Hs|exact Hnd].
Defined.

End StationLinesFacts.

(** ** Times of the day *)

Module ClockFacts.
Import Clock.

Lemma split_length (sep : Ascii.ascii) (s : string) :
  length (split sep s) = S (count sep s).
Proof.
  induction s as [|c s IH]; simpl; [done|].
  destruct (decide (c = sep)); simpl; [by rewrite IH|].
  destruct (split sep s) as [|part parts]; simpl in *; [done|]. done.
Qed.

Lemma split_one (sep : Ascii.ascii) (s part : string) :
  split sep s = [part] → s = part.
Proof.
  revert part. induction s as [|c s IH]; intros part; simpl.
  - by intros [= <-].
  - pose proof (split_length sep s) as Hlen.
    destruct (decide (c = sep)).
    + intros [= <- Hnil]. by rewrite Hnil in Hlen.
    + destruct (split sep s) as [|p ps]; [done|].
      intros [= <- ->]. by rewrite (IH p).
Qed.

Lemma split_two (sep : Ascii.ascii) (s part0 part1 : string) :
  split sep s = [part0; part1] → s = part0 +:+ String sep part1.
Proof.
  revert part0. induction s as [|c s IH]; intros part0; simpl; [done|].
  destruct (decide (c = sep)) as [->|].
  - intros [= <- Hrest]. by rewrite (split_one _ _ _ Hrest).
  - destruct (split sep s) as [|p ps]; [done|].
    intros [= <- ->]. by rewrite (IH p).
Qed.

(** X25. A time that [parse_hhmm_to_minute] accepts is a minute of the
    day, from 0 to 1439; the text, stripped, is an hour part and a
    minute part around one colon, and the two numbers read from them
    are the quotient and the remainder of the result by 60. *)
Theorem parse_hhmm_minute_of_day (strip : string → string)
    (int : string → outcome Z) (s : string) (n : Z) :
  parse_hhmm_to_minute strip int s = Returns n →
  0 ≤ n ≤ 1439 ∧
  ∃ part0 part1, strip s = part0 +:+ String ":" part1 ∧
    int part0 = Returns (n / 60) ∧ int part1 = Returns (n mod 60).
Proof.
  unfold parse_hhmm_to_minute.
  destruct (decide (length (split ":" (strip s)) ≠ 2%nat)) as [|Hlen]; [done|].
  destruct (split ":" (strip s)) as [|part0 [|part1 [|part2 parts]]] eqn:Hsplit;
    simpl in Hlen; try (exfalso; apply Hlen; lia).
  destruct (int part0) as [hours| |] eqn:Hhours; simpl; [|done..].
  destruct (int part1) as [minutes| |] eqn:Hminutes; simpl; [|done..].
  destruct (0 <=? hours) eqn:H1, (hours <=? 23) eqn:H2,
    (0 <=? minutes) eqn:H3, (minutes <=? 59) eqn:H4; simpl; try done.
  intros [= <-].
  apply Z.leb_le in H1, H2, H3, H4.
  assert (Hdiv : (hours * 60 + minutes) / 60 = hours).
  { symmetry. apply (Z.div_unique_pos _ 60 hours minutes); lia. }
  assert (Hmod : (hours * 60 + minutes) mod 60 = minutes).
  { symmetry. apply (Z.mod_unique_pos _ 60 hours minutes); lia. }
  split; [lia|]. exists part0, part1.
  rewrite Hdiv, Hmod. split; [by apply split_two|done].
Qed.

Lemma parse_hhmm_minute_of_day_witness :
  parse_hhmm_to_minute (λ s, s) decimal "9:30" = Returns 570 ∧
  0 ≤ 570 ≤ 1439 ∧
  ∃ part0 part1, "9:30"%string = part0 +:+ String ":" part1 ∧
    decimal part0 = Returns (570 / 60) ∧ decimal part1 = Returns (570 mod 60).
Proof.
  assert (Hrun : parse_hhmm_to_minute (λ s, s) decimal "9:30" = Returns 570)
    by reflexivity.
  split; [exact Hrun|].
  exact (parse_hhmm_minute_of_day (λ s, s) decimal "9:30" 570 Hrun).
Defined.

(** X26. A text that, stripped, has no colon or more than one is refused
    with [ValueError] before any number is read. *)
Theorem parse_hhmm_colons (strip : string → string)
    (int : string → outcome Z) (s : string) :
  count ":" (strip s) ≠ 1%nat →
  parse_hhmm_to_minute strip int s = Raises ValueError.
Proof.
  intros Hcount. unfold parse_hhmm_to_minute.
  rewrite split_length. rewrite decide_True; [done|lia].
Qed.

Lemma parse_hhmm_colons_witness :
  count ":" "9:30:15" ≠ 1%nat ∧
  parse_hhmm_to_minute (λ s, s) decimal "9:30:15" = Raises ValueError ∧
  parse_hhmm_to_minute (λ s, s) decimal "930" = Raises ValueError.
Proof.
  split; [simpl; lia|]. split.
  - apply (parse_hhmm_colons (λ s, s) decimal "9:30:15"). simpl. lia.
  - apply (parse_hhmm_colons (λ s, s) decimal "930"). simpl. lia.
Defined.

End ClockFacts.

(** ** A trip from the finder to the charge *)

Module TripFacts.
Import Fare PathAnalyzer Lines Zones Routing Loader.

Lemma engine_returns (session : option FareSession)
    (trip_time_minute required_zones : Z) (zone_fares : gmap Z float)
    (window_minutes : Z) :
  zone_fares ≠ ∅ →
  ∃ charge session',
    compute_fare_with_transfer_window session trip_time_minute required_zones
      zone_fares window_minutes = Returns (charge, session') ∧
    required_zones ≤ paid_zones session'.
Proof.
  intros Hne. destruct session as [s|].
  - destruct (Z.lt_ge_cases window_minutes
                (trip_time_minute - start_minute s)) as [Hexp|Hin].
    + destruct (FareFacts.engine_new_session zone_fares Hne window_minutes
                  (Some s) trip_time_minute required_zones) as (c & _ & ->).
      { by intros s' [= <-]. }
      do 2 eexists. split; [done|]. simpl. lia.
    + destruct (FareFacts.engine_within_window zone_fares Hne window_minutes s
                  trip_time_minute required_zones Hin) as (c & p & _ & _ & ->).
      destruct (Z.leb_spec required_zones (paid_zones s));
        do 2 eexists; (split; [done|]); simpl; lia.
  - destruct (FareFacts.engine_new_session zone_fares Hne window_minutes None
                trip_time_minute required_zones) as (c & _ & ->); [done|].
    do 2 eexists. split; [done|]. simpl. lia.
Qed.

(** X27. In a network loaded from rows without negative minutes, with a
    fare table that is not empty, nothing that the trip loop calls on a
    found path fails: the lines, the transfers, the zones, the mode and
    the charge are all returned, the stations of the path are all in
    [stations], and the session that comes back has paid for the zones
    that the trip needs, which are 1 at least. *)
Theorem trip_steps_return (upper : string → string)
    (station_rows : list Station) (edge_rows : list EdgeRow)
    (stations : gmap string Station) (graph : gmap string (list Edge))
    (zone_fares : gmap Z float) (window_minutes : Z)
    (session : option FareSession) (trip_time : Z)
    (start goal : string) (path : list string) (total : Z) :
  build_network station_rows edge_rows = Returns (stations, graph) →
  Forall (λ row, 0 ≤ row_minutes row) edge_rows →
  zone_fares ≠ ∅ →
  dijkstra_path graph start goal = Returns (Some (path, total)) →
  ∃ lines transfers z mode charge session',
    segment_lines graph path = Returns lines ∧
    transfer_stations path lines = Some transfers ∧
    zones_crossed stations path = Returns z ∧
    infer_mode_for_path upper graph path = Returns mode ∧
    compute_fare_with_transfer_window session trip_time
      (trip_required_zones upper mode z) zone_fares window_minutes
      = Returns (charge, session') ∧
    1 ≤ trip_required_zones upper mode z ≤ paid_zones session' ∧
    ∀ s, s ∈ path → is_Some (stations !! s).
Proof.
  intros (_ & Hall & Hgraph)%LoaderFacts.build_network_graph Hrows Hne Hrun.
  pose proof (LoaderFacts.loaded_nonneg _ _ _ Hrows Hgraph) as Hpos.
  destruct (RoutingExtra.found_path_analysis upper _ _ _ _ _ Hpos Hrun)
    as (lines & mode & ts & Hlines & _ & Hmode & _ & Hts).
  destruct (RoutingExtra.found_path_facts _ _ _ _ _ Hpos Hrun)
    as (Hhead & _ & _ & Hin & _).
  assert (Hknown : ∀ s, s ∈ path → is_Some (stations !! s)).
  { intros s Hs. specialize (Hin s Hs). rewrite Hgraph in Hin.
    by apply fmap_is_Some in Hin. }
  assert (Hz : ∃ z, zones_crossed stations path = Returns z).
  { apply ZonesFacts.zones_crossed_outcome. split; [|done].
    intros ->. done. }
  destruct Hz as [z Hz].
  destruct (ZonesFacts.zones_crossed_bounds _ _ _ Hz) as [Hone _].
  destruct (engine_returns session trip_time (trip_required_zones upper mode z)
              zone_fares window_minutes Hne) as (charge & session' & Hrun' & Hpaid).
  exists lines, ts, z, mode, charge, session'.
  do 5 (split; [done|]). split; [|done].
  split; [|done]. unfold trip_required_zones.
  destruct (decide (upper mode = "BUS"%string)); lia.
Qed.

Lemma trip_steps_return_witness :
  build_network demo_station_rows demo_edge_rows
    = Returns (demo_stations, demo_graph) ∧
  Forall (λ row, 0 ≤ row_minutes row) demo_edge_rows ∧
  scenario_fares ≠ ∅ ∧
  dijkstra_path demo_graph "A" "D"
    = Returns (Some (["A"; "C"; "B"; "D"]%string, 8)) ∧
  ∃ lines transfers z mode charge session',
    segment_lines demo_graph ["A"; "C"; "B"; "D"]%string = Returns lines ∧
    transfer_stations ["A"; "C"; "B"; "D"]%string lines = Some transfers ∧
    zones_crossed demo_stations ["A"; "C"; "B"; "D"]%string = Returns z ∧
    infer_mode_for_path ascii_upper demo_graph ["A"; "C"; "B"; "D"]%string
      = Returns mode ∧
    compute_fare_with_transfer_window None 540
      (trip_required_zones ascii_upper mode z) scenario_fares 60
      = Returns (charge, session') ∧
    1 ≤ trip_required_zones ascii_upper mode z ≤ paid_zones session' ∧
    ∀ s, s ∈ ["A"; "C"; "B"; "D"]%string → is_Some (demo_stations !! s).
Proof.
  assert (Hrows : Forall (λ row, 0 ≤ row_minutes row) demo_edge_rows).
  { repeat (apply Forall_cons; split; [simpl; lia|]). apply Forall_nil_2. }
  assert (Hrun : dijkstra_path demo_graph "A" "D"
                 = Returns (Some (["A"; "C"; "B"; "D"]%string, 8)))
    by (vm_compute; reflexivity).
  split; [exact LoaderFacts.build_network_demo|]. split; [exact Hrows|].
  split; [exact FareFacts.scenario_fares_nonempty|]. split; [exact Hrun|].
  exact (trip_steps_return ascii_upper _ _ _ _ scenario_fares 60 None 540
           "A" "D" _ _ LoaderFacts.build_network_demo Hrows
           FareFacts.scenario_fares_nonempty Hrun).
Defined.

End TripFacts.

(** ** The connection of a segment *)

Module EdgeInfoFacts.
Import PathAnalyzer.

Lemma first_edge_to_first (b : string) (before after : list Edge) (e : Edge) :
  Forall (λ x, to_id x ≠ b) before → to_id e = b →
  first_edge_to b (before ++ e :: after) = Returns e.
Proof.
  intros Hbefore He. induction Hbefore as [|x before Hx _ IH]; simpl.
  - by rewrite decide_True.
  - by rewrite decide_False.
Qed.

Lemma first_edge_to_cases (b : string) (edges : list Edge) :
  match first_edge_to b edges with
  | Returns e =>
      ∃ before after, edges = before ++ e :: after ∧ to_id e = b ∧
        Forall (λ x, to_id x ≠ b) before
  | Raises ex => ex = ValueError ∧ Forall (λ x, to_id x ≠ b) edges
  | Diverges => False
  end.
Proof.
  induction edges as [|x edges IH]; simpl; [by split|].
  destruct (decide (to_id x = b)) as [Hx|Hx].
  - exists [], edges. by split.
  - destruct (first_edge_to b edges) as [e|ex|]; [| |done].
    + destruct IH as (before & after & -> & He & Hbefore).
      exists (x :: before), after. split; [done|]. split; [done|].
      by constructor.
    + destruct IH as [-> Hall]. split; [done|]. by constructor.
Qed.

(** X28. [edge_info] returns the first connection of [graph[a]] that
    leads to [b], whatever connections to [b] come after it; it raises
    [KeyError] exactly when [a] has no list in the graph and
    [ValueError] exactly when the list of [a] has no connection to
    [b]. *)
Theorem edge_info_first (graph : gmap string (list Edge)) (a b : string) :
  (∀ e, edge_info graph a b = Returns e ↔
     ∃ before after, graph !! a = Some (before ++ e :: after) ∧ to_id e = b ∧
       Forall (λ x, to_id x ≠ b) before) ∧
  (edge_info graph a b = Raises KeyError ↔ graph !! a = None) ∧
  (edge_info graph a b = Raises ValueError ↔
     ∃ edges, graph !! a = Some edges ∧ Forall (λ x, to_id x ≠ b) edges).
Proof.
  unfold edge_info. destruct (graph !! a) as [edges|].
  - pose proof (first_edge_to_cases b edges) as H. split; [|split].
    + intros e. split.
      * intros Hrun. rewrite Hrun in H.
        destruct H as (before & after & -> & He & Hbefore). by exists before, after.
      * intros (before & after & [= ->] & He & Hbefore).
        by apply first_edge_to_first.
    + split; [|done]. intros Hrun. rewrite Hrun in H. by destruct H.
    + split.
      * intros Hrun. rewrite Hrun in H. destruct H as [_ Hall]. by exists edges.
      * intros (edges' & [= <-] & Hall).
        destruct (first_edge_to b edges) as [e|ex|]; [|by destruct H as [-> _]|done].
        destruct H as (before & after & -> & He & _).
        apply Forall_app in Hall as [_ Hall].
        apply Forall_cons in Hall as [Hne _]. done.
  - split; [|split].
    + intros e. split; [done|]. by intros (? & ? & [=] & _).
    + done.
    + split; [done|]. by intros (? & [=] & _).
Qed.

End EdgeInfoFacts.
